(** * sgsql: the lexer and the top-level parse loop of [parser/parser.go]

    A shallow embedding of the Go code.  Go's [uint] is a 64-bit unsigned
    integer: it is modelled as [Z] with the wrap-around written out
    ([uint]); Go's [int] is a plain [Z].  A Go [string] is a byte sequence,
    modelled as [list ascii].  A run-time panic (index or slice out of
    range) is the outcome [Panic]; loops carry a fuel argument and report
    [Timeout] when it runs out, which the adequacy lemmas below exclude. *)

From Stdlib Require Import ZArith Ascii String DecimalString Bool Lia List.
Import ListNotations.

Local Open Scope Z_scope.

(** ** Go values *)

Abbreviation byte := ascii (only parsing).
Definition gostring := list byte.

Definition str (s : string) : gostring := list_ascii_of_string s.

Definition byte_val (c : byte) : Z := Z.of_N (N_of_ascii c).
Definition byte_of (z : Z) : byte := ascii_of_N (Z.to_N z).

(** [len] is Go's builtin, an [int]; [uint] is the conversion to (and the
    wrap-around of) the unsigned 64-bit type. *)
Definition len {A : Type} (s : list A) : Z := Z.of_nat (length s).
Definition uint (z : Z) : Z := z mod 18446744073709551616.

Definition bytes_eqb (a b : gostring) : bool :=
  if list_eq_dec ascii_dec a b then true else false.

(** ** Outcomes of a run *)

Inductive run (A : Type) : Type :=
| Done (a : A)
| Panic
| Timeout.
Arguments Done {A} a.
Arguments Panic {A}.
Arguments Timeout {A}.

Definition bind {A B : Type} (m : run A) (k : A -> run B) : run B :=
  match m with
  | Done a => k a
  | Panic => Panic
  | Timeout => Timeout
  end.

Notation "x <- m ;; k" := (bind m (fun x => k))
  (at level 61, m at next level, right associativity).

(** [src[i]]: panics out of range. *)
Definition index {A : Type} (s : list A) (i : Z) : run A :=
  if (0 <=? i) && (i <? len s) then
    match nth_error s (Z.to_nat i) with
    | Some c => Done c
    | None => Panic
    end
  else Panic.

(** [src[lo:]] and [src[lo:hi]]: panic unless [0 <= lo <= hi <= len]. *)
Definition slice_from {A : Type} (s : list A) (lo : Z) : run (list A) :=
  if (0 <=? lo) && (lo <=? len s) then Done (skipn (Z.to_nat lo) s) else Panic.

Definition slice {A : Type} (s : list A) (lo hi : Z) : run (list A) :=
  if (0 <=? lo) && (lo <=? hi) && (hi <=? len s)
  then Done (firstn (Z.to_nat (hi - lo)) (skipn (Z.to_nat lo) s))
  else Panic.

Definition slice_to {A : Type} (s : list A) (hi : Z) : run (list A) :=
  slice s 0 hi.

(** ** Data model ([parser.go], lines 9-59) *)

Inductive tokenType : Type :=
| keywordType
| symbolType
| identifierType
| stringType
| numericType.

Definition tokenType_eqb (a b : tokenType) : bool :=
  match a, b with
  | keywordType, keywordType
  | symbolType, symbolType
  | identifierType, identifierType
  | stringType, stringType
  | numericType, numericType => true
  | _, _ => false
  end.

Record loc : Type := mkLoc { line : Z; column : Z }.

Record tok : Type := mkTok { value : gostring; tt : tokenType; tok_loc : loc }.

Record cursor : Type := mkCursor { ptr : Z; cur_loc : loc }.

(** [cursor{}]: the zero value. *)
Definition cursor0 : cursor := mkCursor 0 (mkLoc 0 0).

(** [func (t *tok) eq(rhs *tok) bool] *)
Definition tok_eq (t rhs : tok) : bool :=
  bytes_eqb (value t) (value rhs) && tokenType_eqb (tt t) (tt rhs).

(** [cur.ptr++], [cur.loc.column++], [cur.loc.line++] *)
Definition inc_ptr (c : cursor) : cursor :=
  mkCursor (uint (ptr c + 1)) (cur_loc c).
Definition inc_column (c : cursor) : cursor :=
  mkCursor (ptr c) (mkLoc (line (cur_loc c)) (uint (column (cur_loc c) + 1))).
Definition inc_line (c : cursor) : cursor :=
  mkCursor (ptr c) (mkLoc (uint (line (cur_loc c) + 1)) (column (cur_loc c))).
Definition set_column (c : cursor) (n : Z) : cursor :=
  mkCursor (ptr c) (mkLoc (line (cur_loc c)) n).
Definition set_ptr (c : cursor) (n : Z) : cursor :=
  mkCursor n (cur_loc c).

(** What a scanner returns: a token or nil, a cursor and the ok flag. *)
Definition lexed : Type := (option tok * cursor * bool)%type.
Definition lexer : Type := gostring -> cursor -> run lexed.

Definition no_match (ic : cursor) : lexed := (None, ic, false).

(** ** Errors *)

Inductive error : Type :=
| LexError (hint : gostring) (at_loc : loc)   (* fmt.Errorf in tokenize *)
| errors_New (msg : gostring).

Definition dec (z : Z) : gostring := str (NilZero.string_of_int (Z.to_int z)).

(** The text of the error value, as [fmt.Errorf] and [errors.New] build it. *)
Definition Error (e : error) : gostring :=
  match e with
  | LexError hint l =>
      str "unable to lex tokens" ++ hint ++ str ", at "
        ++ dec (line l) ++ str ":" ++ dec (column l)
  | errors_New msg => msg
  end.

(** ** The lexer of [parser/parser.go] *)

Module Parser.

(** [lexNum], lines 91-162.  The loop yields [None] on an early
    [return nil, ic, false] and [Some cur] when it is left by [break] or by
    its condition. *)
Fixpoint lexNum_loop (fuel : nat) (src : gostring) (ic cur : cursor)
    (periodFound expMarkerFound : bool) : run (option cursor) :=
  match fuel with
  | O => Timeout
  | S fuel' =>
    if ptr cur <? uint (len src) then
      c <- index src (ptr cur) ;;
      let cur := inc_column cur in
      let isDigit := (byte_val "0" <=? byte_val c) && (byte_val c <=? byte_val "9") in
      let isPeriod := Ascii.eqb c "." in
      let isExpMarker := Ascii.eqb c "e" in
      if ptr cur =? ptr ic then
        if negb isDigit && negb isPeriod then Done None
        else lexNum_loop fuel' src ic (inc_ptr cur) isPeriod expMarkerFound
      else if isPeriod then
        if periodFound then Done None
        else lexNum_loop fuel' src ic (inc_ptr cur) true expMarkerFound
      else if isExpMarker then
        if expMarkerFound then Done None
        else if ptr cur =? uint (len src - 1) then Done None
        else
          cNext <- index src (uint (ptr cur + 1)) ;;
          let cur :=
            if Ascii.eqb cNext "-" || Ascii.eqb cNext "+"
            then inc_column (inc_ptr cur) else cur in
          lexNum_loop fuel' src ic (inc_ptr cur) true true
      else if negb isDigit then Done (Some cur)
      else lexNum_loop fuel' src ic (inc_ptr cur) periodFound expMarkerFound
    else Done (Some cur)
  end.

Definition lexNum : lexer := fun src ic =>
  r <- lexNum_loop (S (length src)) src ic ic false false ;;
  match r with
  | None => Done (no_match ic)
  | Some cur =>
      if ptr cur =? ptr ic then Done (no_match ic)
      else
        v <- slice src (ptr ic) (ptr cur) ;;
        Done (Some (mkTok v numericType (cur_loc ic)), cur, true)
  end.

(** [lexCharacterDelimited], lines 164-202.  The loop yields [Some] on the
    [return] inside it and [None] when its condition ends it. *)
Fixpoint lexCharacterDelimited_loop (fuel : nat) (src : gostring)
    (ic cur : cursor) (delimiter : byte) (value : gostring)
  : run (option (tok * cursor)) :=
  match fuel with
  | O => Timeout
  | S fuel' =>
    if ptr cur <? uint (len src) then
      c <- index src (ptr cur) ;;
      if Ascii.eqb c delimiter then
        closing <-
          (if uint (ptr cur + 1) >=? uint (len src) then Done true
           else c' <- index src (uint (ptr cur + 1)) ;;
                Done (negb (Ascii.eqb c' delimiter))) ;;
        if (closing : bool) then
          Done (Some (mkTok value stringType (cur_loc ic), cur))
        else
          let value := value ++ [delimiter] in
          let cur := inc_column (inc_ptr cur) in
          let value := value ++ [c] in
          let cur := inc_column cur in
          lexCharacterDelimited_loop fuel' src ic (inc_ptr cur) delimiter value
      else
        let value := value ++ [c] in
        let cur := inc_column cur in
        lexCharacterDelimited_loop fuel' src ic (inc_ptr cur) delimiter value
    else Done None
  end.

Definition lexCharacterDelimited (src : gostring) (ic : cursor)
    (delimiter : byte) : run lexed :=
  let cur := ic in
  rest <- slice_from src (ptr cur) ;;
  if len rest =? 0 then Done (no_match ic)
  else
    c <- index src (ptr cur) ;;
    if negb (Ascii.eqb c delimiter) then Done (no_match ic)
    else
      let cur := inc_ptr (inc_column cur) in
      r <- lexCharacterDelimited_loop (S (length src)) src ic cur delimiter [] ;;
      match r with
      | Some (t, cur) => Done (Some t, cur, true)
      | None => Done (no_match ic)
      end.

(** [lexString], lines 204-206. *)
Definition lexString : lexer := fun src ic =>
  lexCharacterDelimited src ic "'".

(** [tokenize], lines 61-89.  [try_lexers] is the inner [for ... range
    lexers]: the first scanner that reports [ok] wins. *)
Fixpoint try_lexers (ls : list lexer) (src : gostring) (cur : cursor)
  : run (option (option tok * cursor)) :=
  match ls with
  | [] => Done None
  | l :: ls' =>
      r <- l src cur ;;
      match r with
      | (token, newcursor, true) => Done (Some (token, newcursor))
      | (_, _, false) => try_lexers ls' src cur
      end
  end.

Definition lexers : list lexer := [lexNum; lexString].

Definition lex_error (tokens : list tok) (cur : cursor) : error :=
  let hint :=
    match rev tokens with
    | [] => []
    | last :: _ => str "after " ++ value last
    end in
  LexError hint (cur_loc cur).

Fixpoint tokenize_loop (fuel : nat) (src : gostring) (cur : cursor)
    (tokens : list tok) : run (list tok + error) :=
  match fuel with
  | O => Timeout
  | S fuel' =>
    if ptr cur <? uint (len src) then
      r <- try_lexers lexers src cur ;;
      match r with
      | Some (token, newcursor) =>
          let tokens :=
            match token with
            | Some t => tokens ++ [t]
            | None => tokens
            end in
          tokenize_loop fuel' src newcursor tokens
      | None => Done (inr (lex_error tokens cur))
      end
    else Done (inl tokens)
  end.

Definition tokenize (src : gostring) : run (list tok + error) :=
  tokenize_loop (S (length src)) src cursor0 [].

(** The constants of lines 13-31. *)
Definition selectKeyword : gostring := str "select".
Definition whereKeyword : gostring := str "where".
Definition fromKeyword : gostring := str "from".
Definition asKeyword : gostring := str "as".
Definition tableKeyword : gostring := str "table".
Definition createKeyword : gostring := str "create".
Definition insertKeyword : gostring := str "insert".
Definition intoKeyword : gostring := str "into".
Definition valuesKeyword : gostring := str "values".
Definition intKeyword : gostring := str "int".
Definition textKeyword : gostring := str "text".

Definition semicolonPunct : gostring := str ";".
Definition asteriskPunct : gostring := str "*".
Definition commaPunct : gostring := str ",".
Definition leftparenPunct : gostring := str "(".
Definition rightparenPunct : gostring := str ")".

(** [strings.ToLower(string(b))] for one byte [b] (Go's library, not code
    of this repository): [string(b)] is the UTF-8 encoding of the code
    point [b], two bytes from 0x80 on, and [ToLower] maps the capital
    letters of ASCII and of Latin-1 to their small letters. *)
Definition unicode_ToLower (r : Z) : Z :=
  if ((65 <=? r) && (r <=? 90)) || ((192 <=? r) && (r <=? 214))
     || ((216 <=? r) && (r <=? 222))
  then r + 32 else r.

Definition utf8 (r : Z) : gostring :=
  if r <? 128 then [byte_of r]
  else [byte_of (192 + r / 64); byte_of (128 + r mod 64)].

Definition ToLower_byte (b : byte) : gostring :=
  utf8 (unicode_ToLower (byte_val b)).

(** [strings.ToLower] on a string of ASCII bytes, the only strings
    [lexIdentifier] hands to it; a byte from 0x80 on is left as it is. *)
Definition ToLower (s : gostring) : gostring :=
  map (fun c => if (65 <=? byte_val c) && (byte_val c <=? 90)
                then byte_of (byte_val c + 32) else c) s.

(** [longestMatch], lines 292-333.  [match_options] is the inner
    [for i, option := range options] at one candidate [value], with
    [n = cur.ptr - ic.ptr]. *)
Fixpoint match_options (options : list gostring) (i : Z) (value : gostring)
    (n : Z) (skipList : list Z) (match_ : gostring)
  : run (list Z * gostring) :=
  match options with
  | [] => Done (skipList, match_)
  | option :: rest =>
      if existsb (Z.eqb i) skipList then
        match_options rest (i + 1) value n skipList match_
      else if bytes_eqb option value then
        let skipList := skipList ++ [i] in
        let match_ := if len option >? len match_ then option else match_ in
        match_options rest (i + 1) value n skipList match_
      else
        pre <- slice_to option n ;;
        let sharesPrefix := bytes_eqb value pre in
        let tooLong := len value >? len option in
        let skipList :=
          if tooLong || negb sharesPrefix then skipList ++ [i] else skipList in
        match_options rest (i + 1) value n skipList match_
  end.

Record matchState : Type := mkMatchState {
  lm_value : gostring;
  lm_skipList : list Z;
  lm_match : gostring;
  lm_cur : cursor
}.

Fixpoint longestMatch_loop (fuel : nat) (src : gostring) (ic : cursor)
    (options : list gostring) (st : matchState) : run matchState :=
  match fuel with
  | O => Timeout
  | S fuel' =>
    let cur := lm_cur st in
    if ptr cur <? uint (len src) then
      c <- index src (ptr cur) ;;
      let value := lm_value st ++ ToLower_byte c in
      let cur := inc_ptr cur in
      r <- match_options options 0 value (uint (ptr cur - ptr ic))
             (lm_skipList st) (lm_match st) ;;
      let st := mkMatchState value (fst r) (snd r) cur in
      if len (lm_skipList st) =? len options then Done st
      else longestMatch_loop fuel' src ic options st
    else Done st
  end.

Definition longestMatch_run (src : gostring) (ic : cursor)
    (options : list gostring) : run matchState :=
  longestMatch_loop (S (length src)) src ic options (mkMatchState [] [] [] ic).

Definition longestMatch (src : gostring) (ic : cursor)
    (options : list gostring) : run gostring :=
  st <- longestMatch_run src ic options ;;
  Done (lm_match st).

(** [lexSymbol], lines 208-256. *)
Definition symbols : list gostring :=
  [commaPunct; leftparenPunct; rightparenPunct; semicolonPunct; asteriskPunct].

Definition lexSymbol : lexer := fun src ic =>
  c <- index src (ptr ic) ;;
  let cur := ic in
  let cur := inc_column (inc_ptr cur) in
  if Ascii.eqb c "010" then
    let cur := set_column (inc_line cur) 0 in
    Done (None, cur, true)
  else if Ascii.eqb c "009" then Done (None, cur, true)
  else if Ascii.eqb c " " then Done (None, cur, true)
  else
    match_ <- longestMatch src ic symbols ;;
    if bytes_eqb match_ [] then Done (no_match ic)
    else
      let cur := set_ptr cur (uint (ptr ic + uint (len match_))) in
      let cur := set_column cur (uint (column (cur_loc ic) + uint (len match_))) in
      Done (Some (mkTok match_ symbolType (cur_loc ic)), cur, true).

(** [lexKeyword], lines 258-290. *)
Definition keywords : list gostring :=
  [selectKeyword; insertKeyword; valuesKeyword; tableKeyword; createKeyword;
   whereKeyword; fromKeyword; intoKeyword; textKeyword].

Definition lexKeyword : lexer := fun source ic =>
  let cur := ic in
  match_ <- longestMatch source ic keywords ;;
  if bytes_eqb match_ [] then Done (no_match ic)
  else
    let cur := set_ptr cur (uint (ptr ic + uint (len match_))) in
    let cur := set_column cur (uint (column (cur_loc ic) + uint (len match_))) in
    Done (Some (mkTok match_ keywordType (cur_loc ic)), cur, true).

(** [lexIdentifier], lines 335-376. *)
Definition isAlphabetical (c : byte) : bool :=
  ((byte_val "A" <=? byte_val c) && (byte_val c <=? byte_val "Z"))
  || ((byte_val "a" <=? byte_val c) && (byte_val c <=? byte_val "z")).

Definition isNumeric (c : byte) : bool :=
  (byte_val "0" <=? byte_val c) && (byte_val c <=? byte_val "9").

Fixpoint lexIdentifier_loop (fuel : nat) (src : gostring) (cur : cursor)
    (value : gostring) : run (gostring * cursor) :=
  match fuel with
  | O => Timeout
  | S fuel' =>
    if ptr cur <? uint (len src) then
      c <- index src (ptr cur) ;;
      if isAlphabetical c || isNumeric c || Ascii.eqb c "$" || Ascii.eqb c "_"
      then
        let value := value ++ [c] in
        let cur := inc_column cur in
        lexIdentifier_loop fuel' src (inc_ptr cur) value
      else Done (value, cur)
    else Done (value, cur)
  end.

Definition lexIdentifier : lexer := fun src ic =>
  q <- lexCharacterDelimited src ic "034" ;;
  match q with
  | (token, newCursor, true) => Done (token, newCursor, true)
  | (_, _, false) =>
      let cur := ic in
      c <- index src (ptr cur) ;;
      if negb (isAlphabetical c) then Done (no_match ic)
      else
        let cur := inc_column (inc_ptr cur) in
        r <- lexIdentifier_loop (S (length src)) src cur [c] ;;
        let '(value, cur) := r in
        if len value =? 0 then Done (no_match ic)
        else Done (Some (mkTok (ToLower value) identifierType (cur_loc ic)),
                   cur, true)
  end.

(** The syntax tree, lines 378-426.  A pointer field is an [option]. *)
Inductive ASTType : Type := SelectType | CreateTableType | InsertType.

Inductive expressionType : Type := literalType.

Record expression : Type := mkExpression {
  lit : option tok;
  expression_tt : expressionType
}.

Record columnDefinition : Type := mkColumnDefinition {
  name : tok;
  datatype : tok
}.

Record CreateTableStatement : Type := mkCreateTableStatement {
  createTable_name : tok;
  cols : option (list (option columnDefinition))
}.

Record SelectStatement : Type := mkSelectStatement {
  item : list (option expression);
  from : tok
}.

Record InsertStatement : Type := mkInsertStatement {
  table : tok;
  values : option (list (option expression))
}.

Record Statement : Type := mkStatement {
  selectStatement : option SelectStatement;
  createTableStatement : option CreateTableStatement;
  insertStatement : option InsertStatement;
  statement_tt : ASTType
}.

Record AST : Type := mkAST { Statements : list (option Statement) }.

(** [tokenFromKeyword], [tokenFromPunct], lines 428-440: the location is
    the zero value. *)
Definition tokenFromKeyword (k : gostring) : tok :=
  mkTok k keywordType (mkLoc 0 0).

Definition tokenFromPunct (s : gostring) : tok :=
  mkTok s symbolType (mkLoc 0 0).

(** [expectToken], lines 442-448. *)
Definition expectToken (tokens : list tok) (cursor : Z) (t : tok) : run bool :=
  if cursor >=? uint (len tokens) then Done false
  else
    c <- index tokens cursor ;;
    Done (tok_eq t c).

(** [helpMessage], lines 450-459: the line it prints. *)
Definition helpMessage (tokens : list tok) (cursor : Z) (msg : gostring)
  : run gostring :=
  c <- (if cursor <? uint (len tokens) then index tokens cursor
        else index tokens (uint (cursor - 1))) ;;
  Done (str "[" ++ dec (line (tok_loc c)) ++ str "," ++ dec (column (tok_loc c))
          ++ str "]: " ++ msg ++ str ", got: " ++ value c ++ ["010"%char]).

(** [Parse], lines 461-492.  [parseStatement] is called by [Parse] but
    defined in no file of the repository at hand: it is a parameter.  The
    result carries the lines printed on standard output. *)
Section Parse.

Variable parseStatement : list tok -> Z -> tok -> option Statement * Z * bool.

(** The inner [for expectToken(tokens, cursor, ...)] loop. *)
Fixpoint semicolons_loop (fuel : nat) (tokens : list tok) (cursor : Z)
    (atLeastOneSemicolon : bool) : run (Z * bool) :=
  match fuel with
  | O => Timeout
  | S fuel' =>
      b <- expectToken tokens cursor (tokenFromPunct semicolonPunct) ;;
      if (b : bool) then semicolons_loop fuel' tokens (uint (cursor + 1)) true
      else Done (cursor, atLeastOneSemicolon)
  end.

Fixpoint Parse_loop (fuel : nat) (tokens : list tok) (cursor : Z) (a : AST)
    (out : list gostring) : run ((AST + error) * list gostring) :=
  match fuel with
  | O => Timeout
  | S fuel' =>
    if cursor <? uint (len tokens) then
      let '(stmt, newCursor, ok) :=
        parseStatement tokens cursor (tokenFromPunct semicolonPunct) in
      if negb ok then
        l <- helpMessage tokens cursor (str "Expected statement") ;;
        Done (inr (errors_New (str "Failed to parse, expected statement")),
              out ++ [l])
      else
        let cursor := newCursor in
        let a := mkAST (Statements a ++ [stmt]) in
        r <- semicolons_loop (S (length tokens)) tokens cursor false ;;
        let '(cursor, atLeastOneSemicolon) := r in
        if negb atLeastOneSemicolon then
          l <- helpMessage tokens cursor
                 (str "Expected semi-colon delimiter between statements") ;;
          Done (inr (errors_New (str "Missing semi-colon between statements")),
                out ++ [l])
        else Parse_loop fuel' tokens cursor a out
    else Done (inl a, out)
  end.

(** The loop of [Parse] on a token sequence, and [Parse] itself. *)
Definition Parse_tokens (fuel : nat) (tokens : list tok)
  : run ((AST + error) * list gostring) :=
  Parse_loop fuel tokens 0 (mkAST []) [].

Definition Parse (fuel : nat) (src : gostring)
  : run ((AST + error) * list gostring) :=
  r <- tokenize src ;;
  match r with
  | inr err => Done (inr err, [])
  | inl tokens => Parse_tokens fuel tokens
  end.

End Parse.

End Parser.

(** ** The draft of the lexer in [unnamed/part_000] *)

Module Draft.

(** [lexNum], lines 86-157.  The loop yields [None] on an early
    [return nil, ic, false] and [Some cur] when it is left by [break] or by
    its condition. *)
Fixpoint lexNum_loop (fuel : nat) (src : gostring) (ic cur : cursor)
    (periodFound expMarkerFound : bool) : run (option cursor) :=
  match fuel with
  | O => Timeout
  | S fuel' =>
    if ptr cur <? uint (len src) then
      c <- index src (ptr cur) ;;
      let cur := inc_column cur in
      let isDigit := (byte_val "0" <=? byte_val c) && (byte_val c <=? byte_val "9") in
      let isPeriod := Ascii.eqb c "." in
      let isExpMarker := Ascii.eqb c "e" in
      if ptr cur =? ptr ic then
        if negb isDigit && negb isPeriod then Done None
        else lexNum_loop fuel' src ic (inc_ptr cur) isPeriod expMarkerFound
      else if isPeriod then
        if periodFound then Done None
        else lexNum_loop fuel' src ic (inc_ptr cur) true expMarkerFound
      else if isExpMarker then
        if expMarkerFound then Done None
        else if ptr cur =? uint (len src - 1) then Done None
        else
          cNext <- index src (uint (ptr cur + 1)) ;;
          let cur :=
            if Ascii.eqb cNext "-" || Ascii.eqb cNext "+"
            then inc_column (inc_ptr cur) else cur in
          lexNum_loop fuel' src ic (inc_ptr cur) true true
      else if negb isDigit then Done (Some cur)
      else lexNum_loop fuel' src ic (inc_ptr cur) periodFound expMarkerFound
    else Done (Some cur)
  end.

Definition lexNum : lexer := fun src ic =>
  r <- lexNum_loop (S (length src)) src ic ic false false ;;
  match r with
  | None => Done (no_match ic)
  | Some cur =>
      if ptr cur =? ptr ic then Done (no_match ic)
      else
        v <- slice src (ptr ic) (ptr cur) ;;
        Done (Some (mkTok v numericType (cur_loc ic)), cur, true)
  end.

(** [lexCharacterDelimited], lines 159-197.  The loop yields [Some] on the
    [return] inside it and [None] when its condition ends it. *)
Fixpoint lexCharacterDelimited_loop (fuel : nat) (src : gostring)
    (ic cur : cursor) (delimiter : byte) (value : gostring)
  : run (option (tok * cursor)) :=
  match fuel with
  | O => Timeout
  | S fuel' =>
    if ptr cur <? uint (len src) then
      c <- index src (ptr cur) ;;
      if Ascii.eqb c delimiter then
        closing <-
          (if uint (ptr cur + 1) >=? uint (len src) then Done true
           else c' <- index src (uint (ptr cur + 1)) ;;
                Done (negb (Ascii.eqb c' delimiter))) ;;
        if (closing : bool) then
          Done (Some (mkTok value stringType (cur_loc ic), cur))
        else
          let value := value ++ [delimiter] in
          let cur := inc_column (inc_ptr cur) in
          let value := value ++ [c] in
          let cur := inc_column cur in
          lexCharacterDelimited_loop fuel' src ic (inc_ptr cur) delimiter value
      else
        let value := value ++ [c] in
        let cur := inc_column cur in
        lexCharacterDelimited_loop fuel' src ic (inc_ptr cur) delimiter value
    else Done None
  end.

Definition lexCharacterDelimited (src : gostring) (ic : cursor)
    (delimiter : byte) : run lexed :=
  let cur := ic in
  rest <- slice_from src (ptr cur) ;;
  if len rest =? 0 then Done (no_match ic)
  else
    c <- index src (ptr cur) ;;
    if negb (Ascii.eqb c delimiter) then Done (no_match ic)
    else
      let cur := inc_ptr (inc_column cur) in
      r <- lexCharacterDelimited_loop (S (length src)) src ic cur delimiter [] ;;
      match r with
      | Some (t, cur) => Done (Some t, cur, true)
      | None => Done (no_match ic)
      end.

(** [lexString], lines 199-201. *)
Definition lexString : lexer := fun src ic =>
  lexCharacterDelimited src ic "'".

(** [tokenize], lines 56-84.  [try_lexers] is the inner [for ... range
    lexers]: the first scanner that reports [ok] wins. *)
Fixpoint try_lexers (ls : list lexer) (src : gostring) (cur : cursor)
  : run (option (option tok * cursor)) :=
  match ls with
  | [] => Done None
  | l :: ls' =>
      r <- l src cur ;;
      match r with
      | (token, newcursor, true) => Done (Some (token, newcursor))
      | (_, _, false) => try_lexers ls' src cur
      end
  end.

Definition lexers : list lexer := [lexNum; lexString].

Definition lex_error (tokens : list tok) (cur : cursor) : error :=
  let hint :=
    match rev tokens with
    | [] => []
    | last :: _ => str "after " ++ value last
    end in
  LexError hint (cur_loc cur).

Fixpoint tokenize_loop (fuel : nat) (src : gostring) (cur : cursor)
    (tokens : list tok) : run (list tok + error) :=
  match fuel with
  | O => Timeout
  | S fuel' =>
    if ptr cur <? uint (len src) then
      r <- try_lexers lexers src cur ;;
      match r with
      | Some (token, newcursor) =>
          let tokens :=
            match token with
            | Some t => tokens ++ [t]
            | None => tokens
            end in
          tokenize_loop fuel' src newcursor tokens
      | None => Done (inr (lex_error tokens cur))
      end
    else Done (inl tokens)
  end.

Definition tokenize (src : gostring) : run (list tok + error) :=
  tokenize_loop (S (length src)) src cursor0 [].

End Draft.

(** ** Definitions used by the statements *)

(** Go strings and slices have an [int] length. *)
Definition max_int : Z := 9223372036854775807.
Definition go_len {A : Type} (s : list A) : Prop := len s <= max_int.

(** The five scanners of [parser.go], as one family. *)
Inductive scanner : Type :=
| numeric
| delimited (delimiter : byte)
| symbol
| keyword
| identifier.

Definition scan (s : scanner) : lexer :=
  match s with
  | numeric => Parser.lexNum
  | delimited d => fun src ic => Parser.lexCharacterDelimited src ic d
  | symbol => Parser.lexSymbol
  | keyword => Parser.lexKeyword
  | identifier => Parser.lexIdentifier
  end.

(** A text with every occurrence of the delimiter doubled, and the literal
    it makes between two delimiters. *)
Definition escape_with (d : byte) (text : gostring) : gostring :=
  flat_map (fun c => if Ascii.eqb c d then [d; d] else [c]) text.

Definition quote_with (d : byte) (text : gostring) : gostring :=
  [d] ++ escape_with d text ++ [d].

(** The input after the closing delimiter does not start with one. *)
Definition no_delimiter_ahead (d : byte) (tail : gostring) : Prop :=
  match tail with
  | c :: _ => c <> d
  | [] => True
  end.

(** A text between single quotes, every quote of the text doubled; a text
    between double quotes. *)
Definition escape (text : gostring) : gostring := escape_with "'" text.

Definition quote (text : gostring) : gostring := quote_with "'" text.

Definition dquote (text : gostring) : gostring := quote_with "034" text.

Definition delimited_ok (src : gostring) (d : byte) (lo : Z)
    (r : option (tok * cursor)) : Prop :=
  match r with
  | Some (t, c') =>
      lo <= ptr c' < len src /\ index src (ptr c') = Done d /\ tt t = stringType
  | None => True
  end.

Definition numeric_token (t : tok) : Prop :=
  value t <> [] /\ tt t = numericType.

Definition frame (ic : cursor) (r : run lexed) : Prop :=
  match r with
  | Done (_, c, false) => c = ic
  | Done (_, c, true) => ptr ic <= ptr c
  | Panic => True
  | Timeout => False
  end.

(** The semicolon template of [Parse] and the length of the run of
    semicolon tokens at the head of a token sequence. *)
Definition semicolon : tok := Parser.tokenFromPunct Parser.semicolonPunct.

Fixpoint semicolon_run (ts : list tok) : nat :=
  match ts with
  | t :: ts' => if tok_eq semicolon t then S (semicolon_run ts') else O
  | [] => O
  end.

Definition missing_semicolon : error :=
  errors_New (str "Missing semi-colon between statements").

(** The input from the starting cursor on, and the candidate the loop has
    built after [k] bytes of it. *)
Definition remaining (src : gostring) (ic : cursor) : gostring :=
  skipn (Z.to_nat (ptr ic)) src.

Definition candidate (src : gostring) (ic : cursor) (k : nat) : gostring :=
  flat_map Parser.ToLower_byte (firstn k (remaining src ic)).



(** What makes the inner loop put an entry on the skip list. *)
Definition skips (v : gostring) (n : Z) (o : gostring) : Prop :=
  o = v \/ len v > len o \/ v <> firstn (Z.to_nat n) o.

Definition newly_skipped (opts : list gostring) (i : Z) (sl : list Z)
    (v : gostring) (n : Z) (x : Z) : Prop :=
  exists idx o, x = i + Z.of_nat idx /\ nth_error opts idx = Some o
                /\ ~ In x sl /\ skips v n o.

Definition match_options_post (opts : list gostring) (i : Z) (v : gostring)
    (n : Z) (sl : list Z) (m : gostring) (sl' : list Z) (m' : gostring) : Prop :=
  (forall x, In x sl' <-> In x sl \/ newly_skipped opts i sl v n x)
  /\ (NoDup sl -> NoDup sl')
  /\ (length m <= length m')%nat
  /\ (m' = m \/ (In m' opts /\ m' = v))
  /\ (forall idx o, nth_error opts idx = Some o -> ~ In (i + Z.of_nat idx) sl ->
        o = v -> (length o <= length m')%nat).

(** The match is an entry that equalled a candidate of at most [k] bytes,
    and no entry that did is longer. *)
Definition good_match (src : gostring) (ic : cursor) (options : list gostring)
    (k : nat) (m : gostring) : Prop :=
  (m = [] \/ (In m options
              /\ exists j, (1 <= j <= k)%nat /\ m = candidate src ic j))
  /\ (forall o j, In o options -> (1 <= j <= k)%nat -> o = candidate src ic j ->
        (length o <= length m)%nat).

(** The state of [longestMatch] at the head of its loop, [k] bytes in. *)
Definition loop_inv (src : gostring) (ic : cursor) (options : list gostring)
    (k : nat) (st : Parser.matchState) : Prop :=
  Parser.lm_value st = candidate src ic k
  /\ ptr (Parser.lm_cur st) = ptr ic + Z.of_nat k
  /\ (k <= length (remaining src ic))%nat
  /\ NoDup (Parser.lm_skipList st)
  /\ (forall x, In x (Parser.lm_skipList st) -> 0 <= x < len options)
  /\ good_match src ic options k (Parser.lm_match st)
  /\ length (candidate src ic k) = k
  /\ (forall idx o, nth_error options idx = Some o ->
        ~ In (Z.of_nat idx) (Parser.lm_skipList st) ->
        firstn k o = candidate src ic k /\ (k < length o)%nat)
  /\ (forall idx o, nth_error options idx = Some o ->
        In (Z.of_nat idx) (Parser.lm_skipList st) ->
        forall j, (k < j <= length (remaining src ic))%nat ->
                  o <> candidate src ic j).

Definition loop_final (src : gostring) (ic : cursor) (options : list gostring)
    (st : Parser.matchState) : Prop :=
  exists k, ptr (Parser.lm_cur st) = ptr ic + Z.of_nat k
            /\ (k <= length (remaining src ic))%nat
            /\ good_match src ic options k (Parser.lm_match st).

(** A statement parser to run [Parse] with: one Numeric token is a
    statement, anything else is none. *)
Definition literal_statement : Parser.Statement :=
  Parser.mkStatement None None None Parser.SelectType.

Definition parse_one_literal (tokens : list tok) (cursor : Z) (delimiter : tok)
  : option Parser.Statement * Z * bool :=
  match index tokens cursor with
  | Done t =>
      if tokenType_eqb (tt t) numericType
      then (Some literal_statement, uint (cursor + 1), true)
      else (None, cursor, false)
  | _ => (None, cursor, false)
  end.

(** The tokens of [1;;] *)
Definition one_literal_tokens : list tok :=
  [mkTok (str "1") numericType (mkLoc 0 0);
   mkTok (str ";") symbolType (mkLoc 0 1);
   mkTok (str ";") symbolType (mkLoc 0 2)].

Definition in_into_int : list gostring := [str "in"; str "into"; str "int"].

(** ** Definitions used by the further properties *)

Definition isDigit (c : byte) : bool :=
  (byte_val "0" <=? byte_val c) && (byte_val c <=? byte_val "9").

(** What may follow a number: nothing, or a byte at which [lexNum] leaves its
    loop (no digit, no period, no exponent marker). *)
Definition numeric_stop (tail : gostring) : Prop :=
  match tail with
  | [] => True
  | x :: _ => isDigit x = false /\ Ascii.eqb x "." = false /\ Ascii.eqb x "e" = false
  end.

(** The column is one too far when the loop was left at a byte. *)
Definition stop_column (tail : gostring) : Z :=
  match tail with
  | [] => 0
  | _ :: _ => 1
  end.

(** The byte is one of the five symbols. *)
Definition is_symbol (c : byte) : bool :=
  existsb (bytes_eqb [c]) Parser.symbols.

(** Where a scanner that consumed [n] bytes of one line leaves the cursor. *)
Definition advance (ic : cursor) (n : Z) : cursor :=
  mkCursor (ptr ic + n)
    (mkLoc (line (cur_loc ic)) (uint (column (cur_loc ic) + n))).

(** The bytes a bare identifier goes on with, and what may follow one. *)
Definition isIdentifierByte (c : byte) : bool :=
  Parser.isAlphabetical c || Parser.isNumeric c || Ascii.eqb c "$" || Ascii.eqb c "_".

Definition identifier_stop (tail : gostring) : Prop :=
  match tail with
  | [] => True
  | x :: _ => isIdentifierByte x = false
  end.

(** The bytes of the source between two cursors. *)
Definition between (src : gostring) (ic cur : cursor) : gostring :=
  firstn (Z.to_nat (ptr cur - ptr ic)) (skipn (Z.to_nat (ptr ic)) src).

(** The shape of what [lexNum] has consumed: digits, periods, exponent
    markers and signs only, at most one period and one marker, and the two
    flags set when they were seen. *)
Definition numeric_byte (c : byte) : Prop :=
  isDigit c = true \/ c = "."%char \/ c = "e"%char \/ c = "+"%char \/ c = "-"%char.

Definition numeric_shape (v : gostring) : Prop :=
  Forall numeric_byte v
  /\ (count_occ ascii_dec v "."%char <= 1)%nat
  /\ (count_occ ascii_dec v "e"%char <= 1)%nat.

Definition numeric_flags (periodFound expMarkerFound : bool) (v : gostring) : Prop :=
  numeric_shape v
  /\ (count_occ ascii_dec v "."%char = 1%nat -> periodFound = true)
  /\ (count_occ ascii_dec v "e"%char = 1%nat -> expMarkerFound = true).

(** The kinds of token a scanner can return. *)
Definition kinds (s : scanner) : list tokenType :=
  match s with
  | numeric => [numericType]
  | delimited _ => [stringType]
  | symbol => [symbolType]
  | keyword => [keywordType]
  | identifier => [identifierType; stringType]
  end.

(** ** Arithmetic of [uint], indexing *)

Lemma uint_small z : 0 <= z < 18446744073709551616 -> uint z = z.
Proof. intros H; unfold uint; apply Z.mod_small; exact H. Qed.

Lemma uint_range z : 0 <= uint z < 18446744073709551616.
Proof. unfold uint; apply Z.mod_pos_bound; lia. Qed.

Lemma len_nonneg {A : Type} (s : list A) : 0 <= len s.
Proof. unfold len; lia. Qed.

Lemma uint_len {A : Type} (s : list A) : go_len s -> uint (len s) = len s.
Proof.
  unfold go_len, max_int; intros H; apply uint_small.
  pose proof (len_nonneg s); lia.
Qed.

Lemma index_Done {A : Type} (s : list A) i c :
  index s i = Done c -> 0 <= i < len s /\ nth_error s (Z.to_nat i) = Some c.
Proof.
  unfold index.
  destruct (0 <=? i) eqn:H0; destruct (i <? len s) eqn:H1; simpl; try discriminate.
  destruct (nth_error s (Z.to_nat i)) eqn:E; try discriminate.
  intros [= ->]; split; [lia | reflexivity].
Qed.

Lemma index_in_range {A : Type} (s : list A) i :
  0 <= i < len s -> exists c, index s i = Done c.
Proof.
  intros H; unfold index.
  replace (0 <=? i) with true by (symmetry; apply Z.leb_le; lia).
  replace (i <? len s) with true by (symmetry; apply Z.ltb_lt; lia).
  simpl.
  destruct (nth_error s (Z.to_nat i)) eqn:E; [eauto |].
  apply nth_error_None in E; unfold len in H; lia.
Qed.

Lemma index_not_Timeout {A : Type} (s : list A) i : index s i <> Timeout.
Proof.
  unfold index.
  destruct ((0 <=? i) && (i <? len s)); [| discriminate].
  destruct (nth_error s (Z.to_nat i)); discriminate.
Qed.

Lemma index_Panic {A : Type} (s : list A) i :
  index s i = Panic -> i < 0 \/ len s <= i.
Proof.
  intros H.
  destruct (Z_lt_dec i 0) as [|H0]; [now left |].
  destruct (Z_le_dec (len s) i) as [|H1]; [now right |].
  destruct (index_in_range s i) as [c Hc]; [lia | congruence].
Qed.

Lemma ptr_inc_column c : ptr (inc_column c) = ptr c.
Proof. reflexivity. Qed.

Lemma ptr_inc_ptr c : 0 <= ptr c < max_int -> ptr (inc_ptr c) = ptr c + 1.
Proof. unfold max_int; intros H; cbn [inc_ptr ptr]; apply uint_small; lia. Qed.

Lemma uint_succ z : 0 <= z < max_int -> uint (z + 1) = z + 1.
Proof. unfold max_int; intros H; apply uint_small; lia. Qed.

(** ** The numeric and the delimited scanner *)

(** Destructs the conditions of a loop body, outermost first. *)
Ltac split_ifs :=
  repeat match goal with
  | |- context [if ?b then _ else _] =>
      match b with
      | context [if _ then _ else _] => fail 1
      | _ => destruct b eqn:?
      end
  end.

Ltac ptr_side :=
  unfold max_int in *;
  repeat first [ rewrite ptr_inc_column | rewrite ptr_inc_ptr by ptr_side ];
  lia.

Ltac ptr_simpl :=
  repeat first
    [ rewrite ptr_inc_column
    | rewrite ptr_inc_ptr by ptr_side
    | rewrite uint_succ in * by (unfold max_int in *; lia) ].

Lemma lexNum_loop_spec fuel : forall src ic cur pf ef,
  go_len src ->
  (Z.to_nat (len src - Z.max 0 (ptr cur)) < fuel)%nat ->
  match Parser.lexNum_loop fuel src ic cur pf ef with
  | Done (Some c') =>
      ptr cur <= ptr c' /\ (ptr c' = ptr cur \/ (0 <= ptr cur /\ ptr c' <= len src))
  | Done None => True
  | Panic => ptr cur < 0
  | Timeout => False
  end.
Proof.
  induction fuel as [| fuel IH]; intros src ic cur pf ef Hlen Hfuel; [lia |].
  cbn [Parser.lexNum_loop].
  rewrite (uint_len _ Hlen).
  destruct (ptr cur <? len src) eqn:Hlt; [| lia].
  apply Z.ltb_lt in Hlt.
  destruct (index src (ptr cur)) as [c | |] eqn:Ec; cbn [bind].
  2:{ apply index_Panic in Ec. lia. }
  2:{ now apply index_not_Timeout in Ec. }
  apply index_Done in Ec. destruct Ec as [Hr _].
  assert (Hmax : len src <= max_int) by exact Hlen.
  assert (Hrec : forall c1 pf' ef', ptr cur < ptr c1 <= len src ->
     match Parser.lexNum_loop fuel src ic c1 pf' ef' with
     | Done (Some c') =>
      ptr cur <= ptr c' /\ (ptr c' = ptr cur \/ (0 <= ptr cur /\ ptr c' <= len src))
     | Done None => True
     | Panic => ptr cur < 0
     | Timeout => False
     end).
  { intros c1 pf' ef' Hc1.
    specialize (IH src ic c1 pf' ef' Hlen).
    destruct (Parser.lexNum_loop fuel src ic c1 pf' ef') as [[c'|] | |];
      try (apply IH; lia); assert (H := IH ltac:(lia)); lia. }
  cbn zeta. rewrite !ptr_inc_column.
  destruct (ptr cur =? ptr ic) eqn:Hfirst.
  { split_ifs; [exact I |]. apply Hrec. ptr_simpl. lia. }
  destruct (Ascii.eqb c ".").
  { destruct pf; [exact I |]. apply Hrec. ptr_simpl. lia. }
  destruct (Ascii.eqb c "e").
  { destruct ef; [exact I |].
    destruct (ptr cur =? uint (len src - 1)) eqn:Hlast; [exact I |].
    rewrite uint_small in Hlast by (unfold max_int in *; lia).
    apply Z.eqb_neq in Hlast.
    rewrite uint_succ by lia.
    destruct (index src (ptr cur + 1)) as [cNext | |] eqn:En; cbn [bind].
    - apply Hrec. split_ifs; ptr_simpl; lia.
    - apply index_Panic in En. lia.
    - now apply index_not_Timeout in En. }
  split_ifs.
  - rewrite ptr_inc_column. lia.
  - apply Hrec. ptr_simpl. lia.
Qed.

Lemma slice_nonempty {A : Type} (s : list A) lo hi :
  0 <= lo -> lo < hi -> hi <= len s ->
  exists v, slice s lo hi = Done v /\ v <> [].
Proof.
  intros H0 H1 H2. unfold slice.
  replace (0 <=? lo) with true by (symmetry; apply Z.leb_le; lia).
  replace (lo <=? hi) with true by (symmetry; apply Z.leb_le; lia).
  replace (hi <=? len s) with true by (symmetry; apply Z.leb_le; lia).
  cbn [andb]. eexists; split; [reflexivity |].
  intros E. apply (f_equal (@length A)) in E.
  rewrite length_firstn, length_skipn in E. cbn [length] in E.
  unfold len in H2. lia.
Qed.

Lemma lexNum_spec src ic :
  go_len src ->
  match Parser.lexNum src ic with
  | Done (t, c, false) => c = ic /\ t = None
  | Done (Some t, c, true) =>
      0 <= ptr ic /\ ptr ic < ptr c <= len src /\ value t <> [] /\ tt t = numericType
  | Done (None, _, true) => False
  | Panic => ptr ic < 0
  | Timeout => False
  end.
Proof.
  intros Hlen. unfold Parser.lexNum.
  pose proof (lexNum_loop_spec (S (length src)) src ic ic false false Hlen) as H.
  destruct (Parser.lexNum_loop (S (length src)) src ic ic false false)
    as [[c |] | |]; cbn [bind].
  - assert (Hc := H ltac:(unfold len; lia)). clear H.
    destruct (ptr c =? ptr ic) eqn:E; [now split |].
    apply Z.eqb_neq in E.
    destruct (slice_nonempty src (ptr ic) (ptr c)) as [v [Hv Hne]]; try lia.
    rewrite Hv; cbn [bind value tt]. repeat split; try assumption; lia.
  - now split.
  - apply H. unfold len; lia.
  - apply H. unfold len; lia.
Qed.

Lemma lexCharacterDelimited_loop_spec fuel : forall src ic cur d v,
  go_len src ->
  0 <= ptr cur ->
  (Z.to_nat (len src - ptr cur) < fuel)%nat ->
  exists r, Parser.lexCharacterDelimited_loop fuel src ic cur d v = Done r
            /\ delimited_ok src d (ptr cur) r.
Proof.
  induction fuel as [| fuel IH]; intros src ic cur d v Hlen H0 Hfuel; [lia |].
  assert (Hmax : len src <= max_int) by exact Hlen.
  cbn [Parser.lexCharacterDelimited_loop].
  rewrite (uint_len _ Hlen).
  destruct (ptr cur <? len src) eqn:Hlt; [| eexists; split; [reflexivity | exact I]].
  apply Z.ltb_lt in Hlt.
  destruct (index_in_range src (ptr cur)) as [c Ec]; [lia |].
  rewrite Ec; cbn [bind].
  assert (Hrec : forall c1 v', ptr cur < ptr c1 <= len src ->
    exists r, Parser.lexCharacterDelimited_loop fuel src ic c1 d v' = Done r
              /\ delimited_ok src d (ptr cur) r).
  { intros c1 v' Hc1.
    destruct (IH src ic c1 d v' Hlen) as [r [Hr Hok]]; try lia.
    exists r; split; [exact Hr |].
    destruct r as [[t c'] |]; [| exact I].
    cbn in *. destruct Hok as (? & ? & ?). repeat split; try assumption; lia. }
  destruct (Ascii.eqb c d) eqn:Hd.
  - apply Ascii.eqb_eq in Hd; subst c.
    rewrite uint_succ by lia.
    destruct (ptr cur + 1 >=? len src) eqn:Hend; cbn [bind].
    + eexists; split; [reflexivity |]. cbn. repeat split; try assumption; lia.
    + assert (ptr cur + 1 < len src) by lia.
      destruct (index_in_range src (ptr cur + 1)) as [c' Ec']; [lia |].
      rewrite Ec'; cbn [bind].
      destruct (Ascii.eqb c' d); cbn [negb].
      * apply Hrec. ptr_simpl. lia.
      * eexists; split; [reflexivity |]. cbn. repeat split; try assumption; lia.
  - apply Hrec. ptr_simpl. lia.
Qed.

Lemma lexCharacterDelimited_spec src ic d :
  go_len src ->
  match Parser.lexCharacterDelimited src ic d with
  | Done (t, c, false) => c = ic /\ t = None
  | Done (Some t, c, true) =>
      0 <= ptr ic /\ ptr ic < ptr c < len src /\ index src (ptr c) = Done d
      /\ tt t = stringType
  | Done (None, _, true) => False
  | Panic => ptr ic < 0 \/ len src < ptr ic
  | Timeout => False
  end.
Proof.
  intros Hlen. assert (Hmax : len src <= max_int) by exact Hlen.
  unfold Parser.lexCharacterDelimited, slice_from.
  destruct (0 <=? ptr ic) eqn:H0; cbn [andb bind]; [| left; lia].
  destruct (ptr ic <=? len src) eqn:H1; cbn [bind]; [| right; lia].
  destruct (len (skipn (Z.to_nat (ptr ic)) src) =? 0) eqn:Hrest; [now split |].
  assert (Hlt : ptr ic < len src).
  { apply Z.eqb_neq in Hrest. unfold len in *. rewrite length_skipn in Hrest. lia. }
  destruct (index_in_range src (ptr ic)) as [c Ec]; [lia |].
  rewrite Ec; cbn [bind].
  destruct (Ascii.eqb c d); cbn [negb]; [| now split].
  destruct (lexCharacterDelimited_loop_spec (S (length src)) src ic
              (inc_ptr (inc_column ic)) d [] Hlen) as [r [Hr Hok]].
  { ptr_simpl. lia. }
  { ptr_simpl. unfold len. lia. }
  rewrite Hr; cbn [bind].
  destruct r as [[t c'] |]; [| now split].
  cbn in Hok. destruct Hok as (Hp & Hi & Ht).
  revert Hp. ptr_simpl. intros Hp.
  repeat split; try assumption; lia.
Qed.

(** ** The tokenizer driver *)

Lemma lexNum_at_quote (src : gostring) (ic : cursor) :
  go_len src ->
  index src (ptr ic) = Done "'"%char ->
  Parser.lexNum src ic = Done (no_match ic).
Proof.
  intros Hlen Hi. unfold Parser.lexNum. cbn [Parser.lexNum_loop].
  rewrite (uint_len _ Hlen).
  destruct (index_Done _ _ _ Hi) as [Hr _].
  replace (ptr ic <? len src) with true by (symmetry; apply Z.ltb_lt; lia).
  rewrite Hi; cbn [bind]. cbn zeta.
  rewrite ptr_inc_column, Z.eqb_refl. reflexivity.
Qed.

Lemma tokenize_loop_stuck fuel : forall (src : gostring) cur toks,
  go_len src ->
  index src (ptr cur) = Done "'"%char ->
  (Z.to_nat (len src - ptr cur) < fuel)%nat ->
  exists e, Parser.tokenize_loop fuel src cur toks = Done (inr e).
Proof.
  induction fuel as [| fuel IH]; intros src cur toks Hlen Hq Hfuel; [lia |].
  destruct (index_Done _ _ _ Hq) as [Hr _].
  cbn [Parser.tokenize_loop].
  rewrite (uint_len _ Hlen).
  replace (ptr cur <? len src) with true by (symmetry; apply Z.ltb_lt; lia).
  unfold Parser.lexers. cbn [Parser.try_lexers].
  rewrite (lexNum_at_quote _ _ Hlen Hq). cbn [bind no_match].
  unfold Parser.lexString.
  pose proof (lexCharacterDelimited_spec src cur "'" Hlen) as Hs.
  destruct (Parser.lexCharacterDelimited src cur "'") as [[[t c] ok] | |];
    cbn [bind]; [| lia | contradiction].
  destruct ok.
  - destruct t as [t |]; [| contradiction].
    destruct Hs as (_ & Hp & Hi & _). cbn [bind].
    apply IH; [assumption | assumption | lia].
  - cbn [bind]. eexists; reflexivity.
Qed.

Lemma tokenize_loop_numeric fuel : forall (src : gostring) cur toks,
  go_len src ->
  0 <= ptr cur ->
  (Z.to_nat (len src - ptr cur) < fuel)%nat ->
  exists r, Parser.tokenize_loop fuel src cur toks = Done r /\
    forall toks', r = inl toks' ->
      exists new, toks' = toks ++ new /\ Forall numeric_token new.
Proof.
  induction fuel as [| fuel IH]; intros src cur toks Hlen H0 Hfuel; [lia |].
  cbn [Parser.tokenize_loop].
  rewrite (uint_len _ Hlen).
  destruct (ptr cur <? len src) eqn:Hlt.
  2:{ eexists; split; [reflexivity |]. intros toks' [= <-].
      exists []; split; [now rewrite app_nil_r | constructor]. }
  apply Z.ltb_lt in Hlt.
  unfold Parser.lexers. cbn [Parser.try_lexers].
  pose proof (lexNum_spec src cur Hlen) as Hn.
  destruct (Parser.lexNum src cur) as [[[t c] ok] | |]; cbn [bind]; [| lia | contradiction].
  destruct ok.
  - destruct t as [t |]; [| contradiction].
    destruct Hn as (_ & Hp & Hv & Ht). cbn [bind].
    destruct (IH src c (toks ++ [t]) Hlen) as [r [Hr Hall]]; try lia.
    exists r; split; [exact Hr |].
    intros toks' E. destruct (Hall toks' E) as [new [-> Hnew]].
    exists (t :: new); split; [now rewrite <- app_assoc |].
    constructor; [now split | assumption].
  - unfold Parser.lexString.
    pose proof (lexCharacterDelimited_spec src cur "'" Hlen) as Hs.
    destruct (Parser.lexCharacterDelimited src cur "'") as [[[t' c'] ok'] | |];
      cbn [bind]; [| lia | contradiction].
    destruct ok'.
    + destruct t' as [t' |]; [| contradiction].
      destruct Hs as (_ & Hp & Hi & _). cbn [bind].
      destruct (tokenize_loop_stuck fuel src c' (toks ++ [t']) Hlen Hi) as [e He]; [lia |].
      exists (inr e); split; [exact He | discriminate].
    + cbn [bind]. eexists; split; [reflexivity | discriminate].
Qed.

(** C7: [tokenize] returns on every input, and every token of a
    successful run has a non-empty value. *)
Theorem tokenize_values_nonempty (src : gostring) :
  go_len src ->
  exists r, Parser.tokenize src = Done r /\
    forall tokens, r = inl tokens -> Forall (fun t => value t <> []) tokens.
Proof.
  intros Hlen. unfold Parser.tokenize.
  destruct (tokenize_loop_numeric (S (length src)) src cursor0 [] Hlen)
    as [r [Hr Hall]]; [cbn; lia | cbn [ptr cursor0]; unfold len; lia |].
  exists r; split; [exact Hr |].
  intros tokens E. destruct (Hall tokens E) as [new [-> Hnew]]. cbn [app].
  eapply Forall_impl; [| exact Hnew]. intros x [Hv _]; exact Hv.
Qed.

(** ** The frame of the five scanners *)

Lemma slice_not_Timeout {A : Type} (s : list A) lo hi : slice s lo hi <> Timeout.
Proof. unfold slice. destruct ((0 <=? lo) && (lo <=? hi) && (hi <=? len s)); discriminate. Qed.

Lemma match_options_frame opts : forall i v n sl m,
  match Parser.match_options opts i v n sl m with
  | Done (_, m') => m' = m \/ In m' opts
  | Panic => True
  | Timeout => False
  end.
Proof.
  induction opts as [| o opts IH]; intros i v n sl m; cbn [Parser.match_options].
  - now left.
  - assert (Hrec : forall i' sl' m0, (m0 = m \/ m0 = o) ->
      match Parser.match_options opts i' v n sl' m0 with
      | Done (_, m') => m' = m \/ In m' (o :: opts)
      | Panic => True
      | Timeout => False
      end).
    { intros i' sl' m0 Hm0. specialize (IH i' v n sl' m0).
      destruct (Parser.match_options opts i' v n sl' m0) as [[s1 m1] | |]; auto.
      cbn [In]. destruct IH as [-> | Hin]; [destruct Hm0 as [-> | ->] |]; auto. }
    destruct (existsb (Z.eqb i) sl); [apply Hrec; now left |].
    destruct (bytes_eqb o v).
    { apply Hrec. destruct (len o >? len m); auto. }
    unfold slice_to.
    destruct (slice o 0 n) as [pre | |] eqn:Es; cbn [bind]; [| exact I |].
    + apply Hrec; now left.
    + now apply slice_not_Timeout in Es.
Qed.

Lemma longestMatch_loop_frame fuel : forall src ic options st,
  go_len src ->
  (Z.to_nat (len src - Z.max 0 (ptr (Parser.lm_cur st))) < fuel)%nat ->
  match Parser.longestMatch_loop fuel src ic options st with
  | Done st' =>
      Parser.lm_match st' = Parser.lm_match st
      \/ (In (Parser.lm_match st') options
          /\ 0 <= ptr (Parser.lm_cur st) < len src)
  | Panic => True
  | Timeout => False
  end.
Proof.
  induction fuel as [| fuel IH]; intros src ic options st Hlen Hfuel; [lia |].
  assert (Hmax : len src <= max_int) by exact Hlen.
  cbn [Parser.longestMatch_loop]. cbn zeta.
  rewrite (uint_len _ Hlen).
  destruct (ptr (Parser.lm_cur st) <? len src) eqn:Hlt; [| now left].
  apply Z.ltb_lt in Hlt.
  destruct (index src (ptr (Parser.lm_cur st))) as [c | |] eqn:Ec; cbn [bind];
    [| exact I | now apply index_not_Timeout in Ec].
  apply index_Done in Ec. destruct Ec as [Hr _].
  match goal with
  | |- context [Parser.match_options ?o ?i ?v ?n ?sl ?m] =>
      pose proof (match_options_frame o i v n sl m) as Hm;
      destruct (Parser.match_options o i v n sl m) as [[sl' m'] | |];
      cbn [bind fst snd]; [| exact I | contradiction]
  end.
  cbn [Parser.lm_skipList].
  destruct (len sl' =? len options).
  - cbn [Parser.lm_match]. destruct Hm as [-> | Hin]; [now left | right; split; [assumption | lia]].
  - match goal with
    | |- context [Parser.longestMatch_loop fuel src ic options ?st1] =>
        specialize (IH src ic options st1 Hlen);
        destruct (Parser.longestMatch_loop fuel src ic options st1) as [st' | |]
    end.
    + cbn [Parser.lm_cur Parser.lm_match] in IH.
      destruct IH as [E | [Hin _]].
      * revert Hfuel. ptr_simpl. lia.
      * rewrite E. destruct Hm as [-> | Hin]; [now left | right; split; [assumption | lia]].
      * right; split; [assumption | lia].
    + exact I.
    + apply IH. cbn [Parser.lm_cur]. ptr_simpl. lia.
Qed.

Lemma longestMatch_frame src ic options :
  go_len src ->
  match Parser.longestMatch src ic options with
  | Done m => m = [] \/ (In m options /\ 0 <= ptr ic < len src)
  | Panic => True
  | Timeout => False
  end.
Proof.
  intros Hlen. unfold Parser.longestMatch, Parser.longestMatch_run.
  pose proof (longestMatch_loop_frame (S (length src)) src ic options
                (Parser.mkMatchState [] [] [] ic) Hlen) as H.
  cbn [Parser.lm_cur Parser.lm_match] in H.
  destruct (Parser.longestMatch_loop _ _ _ _ _) as [st | |]; cbn [bind].
  - apply H. unfold len. lia.
  - exact I.
  - apply H. unfold len. lia.
Qed.

Lemma bytes_eqb_eq a b : bytes_eqb a b = true <-> a = b.
Proof.
  unfold bytes_eqb. destruct (list_eq_dec ascii_dec a b); split; congruence.
Qed.

Lemma vocabulary_short m :
  In m Parser.symbols \/ In m Parser.keywords -> 0 < len m <= 6.
Proof.
  unfold Parser.symbols, Parser.keywords; cbn [In].
  intros [H | H]; repeat (destruct H as [<- | H]; [vm_compute; split; [reflexivity | discriminate] |]);
    contradiction.
Qed.

Lemma lexIdentifier_loop_spec fuel : forall src cur v,
  go_len src ->
  0 <= ptr cur ->
  (Z.to_nat (len src - ptr cur) < fuel)%nat ->
  exists v' c', Parser.lexIdentifier_loop fuel src cur v = Done (v', c')
                /\ ptr cur <= ptr c'.
Proof.
  induction fuel as [| fuel IH]; intros src cur v Hlen H0 Hfuel; [lia |].
  assert (Hmax : len src <= max_int) by exact Hlen.
  cbn [Parser.lexIdentifier_loop].
  rewrite (uint_len _ Hlen).
  destruct (ptr cur <? len src) eqn:Hlt; [| do 2 eexists; split; [reflexivity | lia]].
  apply Z.ltb_lt in Hlt.
  destruct (index_in_range src (ptr cur)) as [c Ec]; [lia |].
  rewrite Ec; cbn [bind].
  match goal with |- context [if ?b then _ else _] => destruct b end;
    [| do 2 eexists; split; [reflexivity | lia]].
  destruct (IH src (inc_ptr (inc_column cur)) (v ++ [c]) Hlen) as (v' & c' & Hr & Hp).
  { ptr_simpl. lia. }
  { ptr_simpl. lia. }
  exists v', c'; split; [exact Hr |]. revert Hp. ptr_simpl. lia.
Qed.

Lemma vocabulary_scan_frame (src : gostring) (ic : cursor) options ty :
  go_len src ->
  (forall m, In m options -> 0 < len m <= 6) ->
  frame ic
    (match_ <- Parser.longestMatch src ic options ;;
     if bytes_eqb match_ [] then Done (no_match ic)
     else
       let cur := set_ptr ic (uint (ptr ic + uint (len match_))) in
       let cur := set_column cur (uint (column (cur_loc ic) + uint (len match_))) in
       Done (Some (mkTok match_ ty (cur_loc ic)), cur, true)).
Proof.
  intros Hlen Hshort. assert (Hmax : len src <= max_int) by exact Hlen.
  pose proof (longestMatch_frame src ic options Hlen) as Hm.
  destruct (Parser.longestMatch src ic options) as [m | |]; cbn [bind];
    [| exact I | contradiction].
  destruct (bytes_eqb m []) eqn:Hne; [reflexivity |].
  destruct Hm as [-> | [Hin Hr]]; [discriminate |].
  specialize (Hshort m Hin). cbn [frame set_ptr set_column ptr]. unfold max_int in Hmax.
  rewrite (uint_small (len m)) by lia. rewrite uint_small by lia. lia.
Qed.

(** C9: for each of the five scanners, a failed scan returns the starting
    cursor and a successful scan returns a cursor whose byte offset is at
    least the starting one; no scan runs out of fuel. *)
Theorem scanner_frame (s : scanner) (src : gostring) (ic : cursor) :
  go_len src -> frame ic (scan s src ic).
Proof.
  intros Hlen. assert (Hmax : len src <= max_int) by exact Hlen.
  destruct s as [| d | | |]; cbn [scan].
  - pose proof (lexNum_spec src ic Hlen) as H.
    destruct (Parser.lexNum src ic) as [[[[t |] c] [|]] | |];
      cbn [frame]; intuition lia.
  - pose proof (lexCharacterDelimited_spec src ic d Hlen) as H.
    destruct (Parser.lexCharacterDelimited src ic d) as [[[[t |] c] [|]] | |];
      cbn [frame]; intuition lia.
  - unfold Parser.lexSymbol.
    destruct (index src (ptr ic)) as [c | |] eqn:Ec; cbn [bind];
      [| exact I | now apply index_not_Timeout in Ec].
    apply index_Done in Ec. destruct Ec as [Hr _].
    assert (Hp : ptr ic <= ptr (inc_column (inc_ptr ic))) by (ptr_simpl; lia).
    cbn zeta.
    destruct (Ascii.eqb c "010"); [exact Hp |].
    destruct (Ascii.eqb c "009"); [exact Hp |].
    destruct (Ascii.eqb c " "); [exact Hp |].
    pose proof (vocabulary_scan_frame src ic Parser.symbols symbolType Hlen) as H.
    cbn zeta in H. apply H. intros m Hm. apply vocabulary_short. now left.
  - pose proof (vocabulary_scan_frame src ic Parser.keywords keywordType Hlen) as H.
    apply H. intros m Hm. apply vocabulary_short. now right.
  - unfold Parser.lexIdentifier.
    pose proof (lexCharacterDelimited_spec src ic "034" Hlen) as H.
    destruct (Parser.lexCharacterDelimited src ic "034") as [[[t c] [|]] | |];
      cbn [bind]; [destruct t; cbn [frame]; intuition lia | | exact I | contradiction].
    destruct (index src (ptr ic)) as [c0 | |] eqn:Ec; cbn [bind];
      [| exact I | now apply index_not_Timeout in Ec].
    apply index_Done in Ec. destruct Ec as [Hr _].
    destruct (Parser.isAlphabetical c0); cbn [negb]; [| reflexivity].
    destruct (lexIdentifier_loop_spec (S (length src)) src (inc_column (inc_ptr ic))
                [c0] Hlen) as (v' & c' & Hl & Hp).
    { ptr_simpl. lia. }
    { ptr_simpl. unfold len. lia. }
    rewrite Hl; cbn [bind].
    destruct (len v' =? 0); [reflexivity |].
    cbn. revert Hp. ptr_simpl. lia.
Qed.

(** ** The loop of [Parse] *)

Lemma skipn_nth_error {A : Type} (l : list A) n x :
  nth_error l n = Some x -> skipn n l = x :: skipn (S n) l.
Proof.
  revert l; induction n as [| n IH]; intros [| y l] H; try discriminate.
  - now injection H as ->.
  - cbn [skipn]. cbn [nth_error] in H. now rewrite (IH l H).
Qed.

Lemma semicolons_loop_spec fuel : forall tokens c b,
  go_len tokens ->
  0 <= c <= len tokens ->
  (Z.to_nat (len tokens - c) < fuel)%nat ->
  let n := semicolon_run (skipn (Z.to_nat c) tokens) in
  Parser.semicolons_loop fuel tokens c b
  = Done (c + Z.of_nat n, b || (0 <? n)%nat).
Proof.
  induction fuel as [| fuel IH]; intros tokens c b Hlen Hc Hfuel; [lia |].
  assert (Hmax : len tokens <= max_int) by exact Hlen.
  cbn zeta. cbn [Parser.semicolons_loop]. unfold Parser.expectToken.
  rewrite (uint_len _ Hlen).
  destruct (c >=? len tokens) eqn:Hend.
  - cbn [bind]. rewrite skipn_all2 by (unfold len in *; lia).
    cbn. rewrite orb_false_r. f_equal. f_equal. lia.
  - destruct (index_in_range tokens c) as [t Et]; [lia |].
    rewrite Et; cbn [bind].
    apply index_Done in Et. destruct Et as [_ Hn].
    rewrite (skipn_nth_error _ _ _ Hn). cbn [semicolon_run].
    fold semicolon. destruct (tok_eq semicolon t).
    + rewrite uint_succ by lia.
      rewrite (IH tokens (c + 1) true Hlen) by lia.
      replace (Z.to_nat (c + 1)) with (S (Z.to_nat c)) by lia.
      cbn. rewrite orb_true_r. f_equal. f_equal. lia.
    + cbn. rewrite orb_false_r. f_equal. f_equal. lia.
Qed.

Section ParseLoop.

Variable parseStatement : list tok -> Z -> tok -> option Parser.Statement * Z * bool.

(** C6: at the end of the tokens the loop of [Parse] returns the tree; after
    a statement parsed at [cursor] it skips the whole run of [n] semicolon
    tokens that follows: with [n = 0] it fails with the missing-semicolon
    error, otherwise it goes on behind the run, and returns the tree when the
    run ends the tokens. *)
Theorem Parse_loop_semicolons (tokens : list tok) (fuel : nat) (cursor : Z)
    (a : Parser.AST) (out : list gostring) :
  go_len tokens ->
  (len tokens <= cursor ->
     Parser.Parse_loop parseStatement (S fuel) tokens cursor a out
     = Done (inl a, out))
  /\
  (forall stmt newCursor,
     0 <= cursor < len tokens ->
     parseStatement tokens cursor semicolon = (stmt, newCursor, true) ->
     0 <= newCursor <= len tokens ->
     let n := semicolon_run (skipn (Z.to_nat newCursor) tokens) in
     let a' := Parser.mkAST (Parser.Statements a ++ [stmt]) in
     (n = O ->
        exists l,
          Parser.Parse_loop parseStatement (S fuel) tokens cursor a out
          = Done (inr missing_semicolon, out ++ [l]))
     /\
     (n <> O ->
        Parser.Parse_loop parseStatement (S fuel) tokens cursor a out
        = Parser.Parse_loop parseStatement fuel tokens
            (newCursor + Z.of_nat n) a' out)
     /\
     (n <> O -> newCursor + Z.of_nat n = len tokens ->
        Parser.Parse_loop parseStatement (S (S fuel)) tokens cursor a out
        = Done (inl a', out))).
Proof.
  intros Hlen. assert (Hmax : len tokens <= max_int) by exact Hlen.
  assert (Hend : forall f c a0, len tokens <= c ->
            Parser.Parse_loop parseStatement (S f) tokens c a0 out = Done (inl a0, out)).
  { intros f c a0 Hc. cbn [Parser.Parse_loop]. rewrite (uint_len _ Hlen).
    now replace (c <? len tokens) with false by (symmetry; apply Z.ltb_ge; lia). }
  split; [apply Hend |].
  intros stmt newCursor Hc Hp Hn n a'.
  assert (Hstep : forall f,
    Parser.Parse_loop parseStatement (S f) tokens cursor a out =
    if (0 <? n)%nat
    then Parser.Parse_loop parseStatement f tokens (newCursor + Z.of_nat n) a' out
    else l <- Parser.helpMessage tokens (newCursor + Z.of_nat n)
                (str "Expected semi-colon delimiter between statements") ;;
         Done (inr missing_semicolon, out ++ [l])).
  { intros f. cbn [Parser.Parse_loop]. rewrite (uint_len _ Hlen).
    replace (cursor <? len tokens) with true by (symmetry; apply Z.ltb_lt; lia).
    fold semicolon. rewrite Hp. cbn [negb].
    rewrite (semicolons_loop_spec (S (length tokens)) tokens newCursor false Hlen Hn)
      by (unfold len; lia).
    cbn [bind orb]. fold n. destruct (0 <? n)%nat; reflexivity. }
  repeat split.
  - intros H0. rewrite Hstep, H0. cbn [Nat.ltb Nat.leb].
    rewrite Z.add_0_r. unfold Parser.helpMessage.
    rewrite (uint_len _ Hlen).
    assert (exists t, (if newCursor <? len tokens then index tokens newCursor
                       else index tokens (uint (newCursor - 1))) = Done t) as [t Et].
    { destruct (newCursor <? len tokens) eqn:E.
      - apply index_in_range. lia.
      - rewrite uint_small by (unfold max_int in *; lia).
        apply index_in_range. lia. }
    rewrite Et; cbn [bind]. eexists; reflexivity.
  - intros H0. rewrite Hstep.
    replace (0 <? n)%nat with true by (symmetry; apply Nat.ltb_lt; lia).
    reflexivity.
  - intros H0 He. rewrite Hstep.
    replace (0 <? n)%nat with true by (symmetry; apply Nat.ltb_lt; lia).
    apply Hend. lia.
Qed.

End ParseLoop.


(** ** The longest-match engine *)

Lemma ToLower_byte_nonempty c : (1 <= length (Parser.ToLower_byte c))%nat.
Proof.
  unfold Parser.ToLower_byte, Parser.utf8.
  destruct (_ <? 128); cbn [length]; lia.
Qed.

Lemma flat_map_ToLower_length l :
  (length l <= length (flat_map Parser.ToLower_byte l))%nat.
Proof.
  induction l as [| c l IH]; cbn [flat_map length]; [lia |].
  rewrite length_app. pose proof (ToLower_byte_nonempty c). lia.
Qed.

Lemma firstn_add {A : Type} (l : list A) k d :
  firstn (k + d) l = firstn k l ++ firstn d (skipn k l).
Proof.
  revert l; induction k as [| k IH]; intros [| x l]; cbn [Nat.add firstn skipn app];
    try reflexivity.
  - now destruct d.
  - now rewrite IH.
Qed.

Lemma candidate_add src ic k d :
  candidate src ic (k + d)
  = candidate src ic k
    ++ flat_map Parser.ToLower_byte (firstn d (skipn k (remaining src ic))).
Proof. unfold candidate. now rewrite firstn_add, flat_map_app. Qed.

Lemma candidate_grows src ic k j :
  (k < j <= length (remaining src ic))%nat ->
  exists x, candidate src ic j = candidate src ic k ++ x /\ x <> [].
Proof.
  intros H. replace j with (k + (j - k))%nat by lia.
  rewrite candidate_add. eexists; split; [reflexivity |].
  intros E. apply (f_equal (@length _)) in E. cbn [length] in E.
  pose proof (flat_map_ToLower_length (firstn (j - k) (skipn k (remaining src ic)))) as Hl.
  rewrite length_firstn, length_skipn in Hl. lia.
Qed.

Lemma candidate_length src ic k :
  (k <= length (remaining src ic))%nat -> (k <= length (candidate src ic k))%nat.
Proof.
  intros H. unfold candidate.
  pose proof (flat_map_ToLower_length (firstn k (remaining src ic))) as Hl.
  rewrite length_firstn in Hl. lia.
Qed.

Lemma candidate_step src ic k :
  0 <= ptr ic ->
  (k < length (remaining src ic))%nat ->
  exists c, index src (ptr ic + Z.of_nat k) = Done c
            /\ candidate src ic (S k) = candidate src ic k ++ Parser.ToLower_byte c.
Proof.
  intros H0 Hk. unfold remaining in Hk. rewrite length_skipn in Hk.
  destruct (index_in_range src (ptr ic + Z.of_nat k)) as [c Ec]; [unfold len; lia |].
  exists c; split; [exact Ec |].
  apply index_Done in Ec. destruct Ec as [_ En].
  replace (S k) with (k + 1)%nat by lia. rewrite candidate_add. f_equal.
  replace (Z.to_nat (ptr ic + Z.of_nat k)) with (Z.to_nat (ptr ic) + k)%nat in En by lia.
  rewrite <- nth_error_skipn in En. fold (remaining src ic) in En.
  rewrite (skipn_nth_error _ _ _ En). cbn [firstn flat_map]. now rewrite app_nil_r.
Qed.

Lemma existsb_Zeqb_In i sl : existsb (Z.eqb i) sl = true <-> In i sl.
Proof.
  rewrite existsb_exists. split.
  - intros [x [Hin E]]. apply Z.eqb_eq in E. now subst.
  - intros H. exists i. split; [assumption | apply Z.eqb_refl].
Qed.

Lemma NoDup_snoc {A : Type} (l : list A) x : NoDup l -> ~ In x l -> NoDup (l ++ [x]).
Proof.
  intros Hl Hx. apply NoDup_app; [assumption | repeat constructor; intros [] |].
  intros y Hy [<- | []]. contradiction.
Qed.

Lemma match_options_post_cons o opts i v n sl m (add : bool) m1 sl' m' :
  (if add then ~ In i sl /\ skips v n o else In i sl \/ ~ skips v n o) ->
  (length m <= length m1)%nat ->
  (m1 = m \/ (m1 = o /\ o = v)) ->
  (~ In i sl -> o = v -> (length o <= length m1)%nat) ->
  match_options_post opts (i + 1) v n (if add then sl ++ [i] else sl) m1 sl' m' ->
  match_options_post (o :: opts) i v n sl m sl' m'.
Proof.
  intros Hadd Hlen1 Hm1 Hmax (HA & HB & HC & HD & HE).
  assert (Hin1 : forall x, In x (if add then sl ++ [i] else sl)
                           <-> In x sl \/ (add = true /\ x = i)).
  { intros x. destruct add; [rewrite in_app_iff; cbn [In] |]; intuition congruence. }
  repeat split.
  - intros Hx. apply HA in Hx. destruct Hx as [Hx | (idx & o' & -> & Hn & Hnin & Hs)].
    + apply Hin1 in Hx. destruct Hx as [Hx | [-> ->]]; [now left | right].
      exists O, o. rewrite Z.add_0_r. cbn [nth_error]. tauto.
    + right. exists (S idx), o'. cbn [nth_error].
      replace (i + Z.of_nat (S idx)) with (i + 1 + Z.of_nat idx) by lia.
      repeat split; try assumption. intros Hx. apply Hnin, Hin1. now left.
  - intros [Hx | (idx & o' & -> & Hn & Hnin & Hs)].
    + apply HA. left. apply Hin1. now left.
    + destruct idx as [| idx]; cbn [nth_error] in Hn.
      * injection Hn as <-. rewrite Z.add_0_r in *.
        destruct add; [| tauto]. apply HA. left. apply Hin1. now right.
      * apply HA. right. exists idx, o'.
        replace (i + 1 + Z.of_nat idx) with (i + Z.of_nat (S idx)) by lia.
        repeat split; try assumption.
        intros Hx. apply Hin1 in Hx. destruct Hx as [Hx | [_ Hx]]; [contradiction | lia].
  - intros Hnd. apply HB. destruct add; [| assumption].
    apply NoDup_snoc; tauto.
  - lia.
  - destruct HD as [-> | [Hin ->]].
    + destruct Hm1 as [-> | [-> <-]]; [now left | right; split; [now left | reflexivity]].
    + right; split; [now right | reflexivity].
  - intros idx o' Hn Hnin Ho. destruct idx as [| idx]; cbn [nth_error] in Hn.
    + injection Hn as <-. rewrite Z.add_0_r in Hnin. specialize (Hmax Hnin Ho). lia.
    + apply (HE idx o' Hn); [| assumption].
      replace (i + 1 + Z.of_nat idx) with (i + Z.of_nat (S idx)) by lia.
      intros Hx. apply Hin1 in Hx. destruct Hx as [Hx | [_ Hx]]; [contradiction | lia].
Qed.

Lemma match_options_spec opts : forall i v n sl m,
  0 <= n ->
  (forall idx o, nth_error opts idx = Some o -> ~ In (i + Z.of_nat idx) sl ->
     n <= len o) ->
  exists sl' m',
    Parser.match_options opts i v n sl m = Done (sl', m')
    /\ match_options_post opts i v n sl m sl' m'.
Proof.
  induction opts as [| o opts IH]; intros i v n sl m Hn Hpre.
  { exists sl, m; split; [reflexivity |]. repeat split; auto.
    - intros [H | (idx & o & _ & Hnth & _)]; [assumption | now destruct idx].
    - intros idx o Hnth. now destruct idx. }
  assert (Hrec : forall (add : bool) m1,
    (if add then ~ In i sl /\ skips v n o else In i sl \/ ~ skips v n o) ->
    (length m <= length m1)%nat ->
    (m1 = m \/ (m1 = o /\ o = v)) ->
    (~ In i sl -> o = v -> (length o <= length m1)%nat) ->
    exists sl' m',
      Parser.match_options opts (i + 1) v n (if add then sl ++ [i] else sl) m1
      = Done (sl', m')
      /\ match_options_post (o :: opts) i v n sl m sl' m').
  { intros add m1 Hadd H1 H2 H3.
    destruct (IH (i + 1) v n (if add then sl ++ [i] else sl) m1 Hn) as (sl' & m' & Hr & Hpost).
    { intros idx o' Hnth Hnin. apply (Hpre (S idx) o' Hnth).
      replace (i + Z.of_nat (S idx)) with (i + 1 + Z.of_nat idx) by lia.
      intros Hx. apply Hnin. destruct add; [apply in_app_iff; now left | assumption]. }
    exists sl', m'; split; [exact Hr |].
    eapply match_options_post_cons; eassumption. }
  cbn [Parser.match_options].
  destruct (existsb (Z.eqb i) sl) eqn:Hskip.
  { apply existsb_Zeqb_In in Hskip.
    apply (Hrec false m); [now left | lia | now left | contradiction]. }
  assert (Hnin : ~ In i sl).
  { intros H. apply existsb_Zeqb_In in H. congruence. }
  destruct (bytes_eqb o v) eqn:Heq.
  { apply bytes_eqb_eq in Heq. subst v.
    apply (Hrec true (if len o >? len m then o else m)).
    - split; [assumption | now left].
    - destruct (len o >? len m) eqn:E; unfold len in *; lia.
    - destruct (len o >? len m); [now right | now left].
    - intros _ _. destruct (len o >? len m) eqn:E; unfold len in *; lia. }
  assert (Hne : o <> v).
  { intros H. apply bytes_eqb_eq in H. congruence. }
  assert (Hle : n <= len o).
  { apply (Hpre O o eq_refl). now rewrite Z.add_0_r. }
  unfold slice_to, slice.
  replace ((0 <=? 0) && (0 <=? n) && (n <=? len o)) with true
    by (symmetry; rewrite !andb_true_iff, !Z.leb_le; lia).
  cbn [bind]. rewrite Z.sub_0_r. cbn [Z.to_nat skipn].
  destruct ((len v >? len o) || negb (bytes_eqb v (firstn (Z.to_nat n) o))) eqn:Hdrop.
  - apply (Hrec true m); [| lia | now left | contradiction].
    split; [assumption |]. right.
    apply orb_true_iff in Hdrop. destruct Hdrop as [H | H].
    + left. lia.
    + right. intros E. apply bytes_eqb_eq in E. rewrite E in H. discriminate.
  - apply (Hrec false m); [| lia | now left | contradiction].
    right. apply orb_false_iff in Hdrop. destruct Hdrop as [H1 H2].
    apply negb_false_iff, bytes_eqb_eq in H2.
    intros [H | [H | H]]; [congruence | lia | contradiction].
Qed.

Lemma skip_list_full (sl : list Z) (n : nat) :
  NoDup sl ->
  (forall x, In x sl -> 0 <= x < Z.of_nat n) ->
  (forall idx, (idx < n)%nat -> In (Z.of_nat idx) sl) ->
  length sl = n.
Proof.
  intros Hnd Hr Hall.
  set (all := map Z.of_nat (seq 0 n)).
  assert (Hlen : length all = n) by (unfold all; now rewrite length_map, length_seq).
  assert (Hnd' : NoDup all).
  { unfold all. apply NoDup_map_NoDup_ForallPairs; [| apply seq_NoDup].
    intros a b _ _ E. lia. }
  assert (H1 : incl sl all).
  { intros x Hx. specialize (Hr x Hx). unfold all. apply in_map_iff.
    exists (Z.to_nat x). split; [lia | apply in_seq; lia]. }
  assert (H2 : incl all sl).
  { intros x Hx. unfold all in Hx. apply in_map_iff in Hx.
    destruct Hx as (idx & <- & Hi). apply in_seq in Hi. apply Hall. lia. }
  pose proof (NoDup_incl_length Hnd H1). pose proof (NoDup_incl_length Hnd' H2). lia.
Qed.

Section LongestMatch.

Variables (src : gostring) (ic : cursor) (options : list gostring).
Hypothesis Hlen : go_len src.
Hypothesis Hic : 0 <= ptr ic.
Hypothesis Hne : Forall (fun o : gostring => o <> []) options.

Lemma remaining_length :
  Z.of_nat (length (remaining src ic)) = Z.max 0 (len src - ptr ic).
Proof. unfold remaining, len. rewrite length_skipn. lia. Qed.

Lemma good_match_step k m sl sl' m' :
  (k < length (remaining src ic))%nat ->
  good_match src ic options k m ->
  (forall idx o, nth_error options idx = Some o -> In (Z.of_nat idx) sl ->
     forall j, (k < j <= length (remaining src ic))%nat -> o <> candidate src ic j) ->
  match_options_post options 0 (candidate src ic (S k)) (Z.of_nat (S k)) sl m sl' m' ->
  good_match src ic options (S k) m'.
Proof.
  intros Hk [Hm Hmax] Hdead (HA & HB & HC & HD & HE). split.
  - destruct HD as [-> | [Hin ->]].
    + destruct Hm as [-> | [Hin (j & Hj & ->)]]; [now left |].
      right; split; [assumption |]. exists j; split; [lia | reflexivity].
    + right; split; [assumption |]. exists (S k); split; [lia | reflexivity].
  - intros o j Hin Hj Ho.
    destruct (Nat.eq_dec j (S k)) as [-> | Hjk].
    + destruct (In_nth_error _ _ Hin) as [idx Hidx].
      destruct (in_dec Z.eq_dec (Z.of_nat idx) sl) as [Hs | Hs].
      * exfalso. apply (Hdead idx o Hidx Hs (S k)); [lia | exact Ho].
      * apply (HE idx o Hidx); [exact Hs | exact Ho].
    + specialize (Hmax o j Hin ltac:(lia) Ho). lia.
Qed.

(** One iteration keeps the invariant when the loop goes on. *)
Lemma loop_inv_step k st sl' m' :
  (k < length (remaining src ic))%nat ->
  loop_inv src ic options k st ->
  match_options_post options 0 (candidate src ic (S k)) (Z.of_nat (S k))
    (Parser.lm_skipList st) (Parser.lm_match st) sl' m' ->
  length sl' <> length options ->
  forall cur', ptr cur' = ptr ic + Z.of_nat (S k) ->
  loop_inv src ic options (S k)
    (Parser.mkMatchState (candidate src ic (S k)) sl' m' cur').
Proof.
  intros Hk (Hv & Hp & Hkr & Hnd & Hrange & Hgood & Hlenk & Hlive & Hdead) Hpost Hgo cur' Hcur'.
  pose proof (good_match_step k _ _ _ _ Hk Hgood Hdead Hpost) as Hgood'.
  destruct Hpost as (HA & HB & HC & HD & HE).
  assert (Hrange' : forall x, In x sl' -> 0 <= x < len options).
  { intros x Hx. apply HA in Hx. destruct Hx as [Hx | (idx & o & -> & Hn & _)]; [auto |].
    assert (idx < length options)%nat by (apply nth_error_Some; congruence).
    unfold len. lia. }
  assert (Hlen' : length (candidate src ic (S k)) = S k).
  { destruct (Nat.eq_dec (length (candidate src ic (S k))) (S k)) as [E | E]; [exact E |].
    exfalso. apply Hgo.
    apply skip_list_full.
    - auto.
    - exact Hrange'.
    - intros idx Hidx. destruct (nth_error options idx) as [o |] eqn:Hn;
        [| apply nth_error_None in Hn; lia].
      apply HA.
      destruct (in_dec Z.eq_dec (Z.of_nat idx) (Parser.lm_skipList st)) as [Hs | Hs];
        [now left | right].
      exists idx, o. repeat split; try assumption; try lia.
      right; right. intros Ec. apply E. rewrite Ec.
      pose proof (candidate_length src ic (S k) ltac:(lia)) as Hge.
      rewrite Ec in Hge. rewrite length_firstn in *. lia. }
  unfold loop_inv.
  cbn [Parser.lm_value Parser.lm_cur Parser.lm_skipList Parser.lm_match].
  split; [reflexivity |]. split; [exact Hcur' |]. split; [lia |].
  split; [auto |]. split; [exact Hrange' |]. split; [exact Hgood' |].
  split; [exact Hlen' |]. split.
  - (* an entry still alive has the candidate as a proper prefix *)
    intros idx o Hn Hnin.
    assert (Hns : ~ skips (candidate src ic (S k)) (Z.of_nat (S k)) o).
    { intros Hs. apply Hnin, HA. right. exists idx, o.
      repeat split; try assumption; try lia.
      intros Hx. apply Hnin, HA. now left. }
    unfold skips in Hns. rewrite Nat2Z.id in Hns.
    destruct (list_eq_dec ascii_dec (candidate src ic (S k)) (firstn (S k) o)) as [E | E];
      [| tauto].
    split; [now symmetry |].
    assert (Hle : (S k <= length o)%nat).
    { apply (f_equal (@length _)) in E. rewrite length_firstn in E. lia. }
    destruct (Nat.eq_dec (length o) (S k)) as [E2 | E2]; [| lia].
    exfalso. apply Hns. left. rewrite E. rewrite firstn_all2; [reflexivity | lia].
  - (* an entry on the skip list equals no later candidate *)
    intros idx o Hn Hin j Hj Ho. apply HA in Hin.
    destruct (candidate_grows src ic (S k) j ltac:(lia)) as (x & Hx & Hxne).
    destruct Hin as [Hs | (idx' & o' & Hi & Hn' & Hnin & Hs)].
    + apply (Hdead idx o Hn Hs j); [lia | exact Ho].
    + assert (idx' = idx) by lia. subst idx'.
      assert (o' = o) by congruence. subst o'.
      assert (Hxl : (0 < length x)%nat) by (destruct x; [congruence | cbn; lia]).
      destruct Hs as [Hs | [Hs | Hs]].
      * rewrite Ho, Hx in Hs. apply (f_equal (@length _)) in Hs.
        rewrite length_app in Hs. lia.
      * rewrite Ho, Hx in Hs. unfold len in Hs. rewrite length_app in Hs. lia.
      * apply Hs. rewrite Nat2Z.id, Ho, Hx.
        rewrite firstn_app, firstn_all2 by lia.
        rewrite Hlen', Nat.sub_diag. cbn [firstn]. now rewrite app_nil_r.
Qed.

Lemma loop_inv_init : loop_inv src ic options 0 (Parser.mkMatchState [] [] [] ic).
Proof.
  unfold loop_inv.
  cbn [Parser.lm_value Parser.lm_cur Parser.lm_skipList Parser.lm_match In].
  split; [reflexivity |]. split; [lia |]. split; [lia |].
  split; [constructor |]. split; [contradiction |]. split.
  { split; [now left | intros o j _ Hj; lia]. }
  split; [reflexivity |]. split; [| contradiction].
  intros idx o Hn _. split; [reflexivity |].
  apply nth_error_In in Hn. rewrite Forall_forall in Hne. specialize (Hne o Hn).
  destruct o; [congruence | cbn; lia].
Qed.

Lemma longestMatch_loop_spec fuel : forall k st,
  loop_inv src ic options k st ->
  (length (remaining src ic) - k < fuel)%nat ->
  exists st', Parser.longestMatch_loop fuel src ic options st = Done st'
              /\ loop_final src ic options st'.
Proof.
  induction fuel as [| fuel IH]; intros k st Hinv Hfuel; [lia |].
  assert (Hmax : len src <= max_int) by exact Hlen.
  pose proof Hinv as (Hv & Hp & Hkr & Hnd & Hrange & Hgood & Hlenk & Hlive & Hdead).
  pose proof remaining_length as Hrl.
  cbn [Parser.longestMatch_loop]. cbn zeta.
  rewrite (uint_len _ Hlen).
  destruct (ptr (Parser.lm_cur st) <? len src) eqn:Hlt.
  2:{ exists st; split; [reflexivity |]. exists k; auto. }
  apply Z.ltb_lt in Hlt.
  assert (Hk : (k < length (remaining src ic))%nat) by lia.
  destruct (candidate_step src ic k Hic Hk) as (c & Ec & Hc).
  rewrite Hp, Ec; cbn [bind].
  rewrite Hv, <- Hc.
  assert (Hcur : ptr (inc_ptr (Parser.lm_cur st)) = ptr ic + Z.of_nat (S k)).
  { rewrite ptr_inc_ptr by (unfold max_int in *; lia). lia. }
  rewrite Hcur.
  replace (uint (ptr ic + Z.of_nat (S k) - ptr ic)) with (Z.of_nat (S k))
    by (rewrite uint_small; unfold max_int in *; lia).
  destruct (match_options_spec options 0 (candidate src ic (S k)) (Z.of_nat (S k))
              (Parser.lm_skipList st) (Parser.lm_match st)) as (sl' & m' & Hr & Hpost);
    [lia | |].
  { intros idx o Hn Hnin. destruct (Hlive idx o Hn Hnin) as [_ Hl]. unfold len. lia. }
  rewrite Hr; cbn [bind fst snd Parser.lm_skipList].
  destruct (len sl' =? len options) eqn:Hfull.
  - eexists; split; [reflexivity |]. exists (S k).
    cbn [Parser.lm_cur Parser.lm_match]. split; [exact Hcur |]. split; [lia |].
    exact (good_match_step k _ _ _ _ Hk Hgood Hdead Hpost).
  - apply (IH (S k)); [| lia].
    apply (loop_inv_step k st); try assumption.
    apply Z.eqb_neq in Hfull. unfold len in Hfull. lia.
Qed.

End LongestMatch.



(** ** Delimited literals, kinds and lines; totality of the parse loop *)

Lemma index_app_mid {A : Type} (a b : list A) x :
  index (a ++ x :: b) (len a) = Done x.
Proof.
  unfold index, len. rewrite length_app. cbn [length].
  replace (0 <=? Z.of_nat (length a)) with true by (symmetry; apply Z.leb_le; lia).
  replace (Z.of_nat (length a) <? Z.of_nat (length a + S (length b))) with true
    by (symmetry; apply Z.ltb_lt; lia).
  cbn [andb]. rewrite Nat2Z.id, nth_error_app2, Nat.sub_diag by lia. reflexivity.
Qed.

Lemma escape_with_no_delimiter d text :
  ~ In d text -> escape_with d text = text.
Proof.
  induction text as [| c text IH]; intros H; [reflexivity |].
  cbn [escape_with flat_map]. fold (escape_with d text).
  destruct (Ascii.eqb c d) eqn:E.
  - apply Ascii.eqb_eq in E. subst. exfalso. apply H. now left.
  - cbn [app]. rewrite IH; [reflexivity |]. intros Hin. apply H. now right.
Qed.

Lemma index_at {A : Type} (a b : list A) x i :
  i = len a -> index (a ++ x :: b) i = Done x.
Proof. intros ->. apply index_app_mid. Qed.

Lemma len_app {A : Type} (a b : list A) : len (a ++ b) = len a + len b.
Proof. unfold len. rewrite length_app. lia. Qed.

Lemma len_cons {A : Type} (x : A) (a : list A) : len (x :: a) = 1 + len a.
Proof. unfold len. cbn [length]. lia. Qed.

Lemma len_nil {A : Type} : len (@nil A) = 0.
Proof. reflexivity. Qed.

Ltac len_simpl :=
  repeat first [rewrite len_app | rewrite len_cons | rewrite len_nil].

Lemma lexCharacterDelimited_loop_literal d tail ic : forall suf pre v cur fuel src,
  src = [d] ++ pre ++ escape_with d suf ++ [d] ++ tail ->
  go_len src ->
  no_delimiter_ahead d tail ->
  ptr cur = 1 + len pre ->
  (length suf < fuel)%nat ->
  exists c',
    Parser.lexCharacterDelimited_loop fuel src ic cur d v
    = Done (Some (mkTok (v ++ escape_with d suf) stringType (cur_loc ic), c'))
    /\ ptr c' = ptr cur + len (escape_with d suf)
    /\ line (cur_loc c') = line (cur_loc cur).
Proof.
  induction suf as [| x suf IH]; intros pre v cur fuel src Hsrc Hlen Htail Hp Hfuel;
    (destruct fuel as [| fuel]; [cbn in Hfuel; lia |]);
    assert (Hmax : len src <= max_int) by exact Hlen;
    pose proof (len_nonneg pre) as Hpre; pose proof (len_nonneg tail) as Htl;
    cbn [Parser.lexCharacterDelimited_loop]; rewrite (uint_len _ Hlen).
  - (* the closing delimiter *)
    cbn [escape_with flat_map app] in Hsrc.
    assert (Hl : len src = 1 + len pre + 1 + len tail).
    { rewrite Hsrc. rewrite len_cons, len_app, len_cons. lia. }
    replace (ptr cur <? len src) with true by (symmetry; apply Z.ltb_lt; lia).
    assert (Ei : index src (ptr cur) = Done d).
    { rewrite Hsrc. change (d :: pre ++ d :: tail) with ((d :: pre) ++ d :: tail).
      apply index_at. rewrite len_cons. lia. }
    rewrite Ei; cbn [bind]. rewrite Ascii.eqb_refl.
    rewrite uint_succ by lia.
    assert (Eclose : (if ptr cur + 1 >=? len src then Done true
                      else c' <- index src (ptr cur + 1) ;;
                           Done (negb (Ascii.eqb c' d))) = Done true).
    { destruct tail as [| c tail].
      - replace (ptr cur + 1 >=? len src) with true; [reflexivity |].
        symmetry. apply Z.geb_le. change (len (@nil ascii)) with 0 in Hl. lia.
      - rewrite len_cons in Hl. pose proof (len_nonneg tail).
        replace (ptr cur + 1 >=? len src) with false
          by (symmetry; rewrite Z.geb_leb; apply Z.leb_gt; lia).
        assert (Ec : index src (ptr cur + 1) = Done c).
        { rewrite Hsrc.
          change (d :: pre ++ d :: c :: tail) with ((d :: pre) ++ [d] ++ c :: tail).
          rewrite app_assoc. apply index_at. len_simpl. lia. }
        rewrite Ec; cbn [bind]. cbn in Htail.
        destruct (Ascii.eqb c d) eqn:E; [apply Ascii.eqb_eq in E; contradiction |].
        reflexivity. }
    rewrite Eclose; cbn [bind].
    exists cur. rewrite app_nil_r. repeat split. cbn [escape_with flat_map]. len_simpl. lia.
  - (* one byte of the text *)
    cbn [escape_with flat_map] in Hsrc. fold (escape_with d suf) in Hsrc.
    cbn [escape_with flat_map]. fold (escape_with d suf).
    pose proof (len_nonneg (escape_with d suf)) as Hes.
    destruct (Ascii.eqb x d) eqn:Ex.
    + apply Ascii.eqb_eq in Ex. subst x. cbn [app] in Hsrc.
      assert (Hl : len src = 1 + len pre + 2 + len (escape_with d suf) + 1 + len tail).
      { rewrite Hsrc. rewrite len_cons, len_app, !len_cons, len_app, len_cons. lia. }
      replace (ptr cur <? len src) with true by (symmetry; apply Z.ltb_lt; lia).
      assert (Ei : index src (ptr cur) = Done d).
      { rewrite Hsrc.
        change (d :: pre ++ d :: d :: escape_with d suf ++ d :: tail)
          with ((d :: pre) ++ d :: d :: escape_with d suf ++ d :: tail).
        apply index_at. rewrite len_cons. lia. }
      rewrite Ei; cbn [bind]. rewrite Ascii.eqb_refl.
      rewrite uint_succ by lia.
      replace (ptr cur + 1 >=? len src) with false
        by (symmetry; rewrite Z.geb_leb; apply Z.leb_gt; lia).
      assert (Ec : index src (ptr cur + 1) = Done d).
      { rewrite Hsrc.
        change (d :: pre ++ d :: d :: escape_with d suf ++ d :: tail)
          with ((d :: pre) ++ [d] ++ d :: escape_with d suf ++ d :: tail).
        rewrite app_assoc. apply index_at. len_simpl. lia. }
      rewrite Ec; cbn [bind]. rewrite Ascii.eqb_refl. cbn [negb]. cbn zeta.
      destruct (IH (pre ++ [d; d]) ((v ++ [d]) ++ [d])
                  (inc_ptr (inc_column (inc_column (inc_ptr cur)))) fuel src)
        as (c' & Hr & Hpc & Hline).
      { rewrite Hsrc. cbn [app]. rewrite <- app_assoc. reflexivity. }
      { exact Hlen. }
      { exact Htail. }
      { ptr_simpl. len_simpl. lia. }
      { cbn [length] in Hfuel. lia. }
      exists c'. rewrite Hr. split; [| split].
      * do 4 f_equal. rewrite <- !app_assoc. reflexivity.
      * rewrite Hpc. ptr_simpl. len_simpl. lia.
      * rewrite Hline. reflexivity.
    + cbn [app] in Hsrc.
      assert (Hl : len src = 1 + len pre + 1 + len (escape_with d suf) + 1 + len tail).
      { rewrite Hsrc. rewrite len_cons, len_app, !len_cons, len_app, len_cons. lia. }
      replace (ptr cur <? len src) with true by (symmetry; apply Z.ltb_lt; lia).
      assert (Ei : index src (ptr cur) = Done x).
      { rewrite Hsrc.
        change (d :: pre ++ x :: escape_with d suf ++ d :: tail)
          with ((d :: pre) ++ x :: escape_with d suf ++ d :: tail).
        apply index_at. rewrite len_cons. lia. }
      rewrite Ei; cbn [bind]. rewrite Ex. cbn zeta.
      destruct (IH (pre ++ [x]) (v ++ [x]) (inc_ptr (inc_column cur)) fuel src)
        as (c' & Hr & Hpc & Hline).
      { rewrite Hsrc. cbn [app]. rewrite <- app_assoc. reflexivity. }
      { exact Hlen. }
      { exact Htail. }
      { ptr_simpl. len_simpl. lia. }
      { cbn [length] in Hfuel. lia. }
      exists c'. rewrite Hr. split; [| split].
      * do 4 f_equal. rewrite <- !app_assoc. reflexivity.
      * rewrite Hpc. ptr_simpl. len_simpl. lia.
      * rewrite Hline. reflexivity.
Qed.

Lemma lexCharacterDelimited_literal d text tail l :
  go_len (quote_with d text ++ tail) ->
  no_delimiter_ahead d tail ->
  exists c',
    Parser.lexCharacterDelimited (quote_with d text ++ tail) (mkCursor 0 l) d
    = Done (Some (mkTok (escape_with d text) stringType l), c', true)
    /\ ptr c' = 1 + len (escape_with d text)
    /\ line (cur_loc c') = line l.
Proof.
  intros Hlen Htail.
  set (src := quote_with d text ++ tail) in *.
  assert (Hsrc : src = [d] ++ [] ++ escape_with d text ++ [d] ++ tail).
  { unfold src, quote_with. cbn [app]. now rewrite <- app_assoc. }
  assert (Hmax : len src <= max_int) by exact Hlen.
  assert (Hl : 2 <= len src).
  { rewrite Hsrc. len_simpl. pose proof (len_nonneg (escape_with d text)).
    pose proof (len_nonneg tail). lia. }
  unfold Parser.lexCharacterDelimited, slice_from. cbn [ptr].
  replace ((0 <=? 0) && (0 <=? len src)) with true
    by (symmetry; rewrite andb_true_iff, !Z.leb_le; lia).
  cbn [bind Z.to_nat skipn].
  replace (len src =? 0) with false by (symmetry; apply Z.eqb_neq; lia).
  assert (Ei : index src 0 = Done d).
  { rewrite Hsrc. apply (index_at []). reflexivity. }
  rewrite Ei; cbn [bind]. rewrite Ascii.eqb_refl. cbn [negb].
  destruct (lexCharacterDelimited_loop_literal d tail (mkCursor 0 l) text [] []
              (inc_ptr (inc_column (mkCursor 0 l))) (S (length src)) src Hsrc Hlen Htail)
    as (c' & Hr & Hp & Hline).
  { reflexivity. }
  { assert (length text <= length (escape_with d text))%nat.
    { clear. induction text as [| c text IH]; [cbn; lia |].
      cbn [escape_with flat_map length]. fold (escape_with d text).
      rewrite length_app. destruct (Ascii.eqb c d); cbn [length]; lia. }
    rewrite Hsrc. rewrite !length_app. cbn [length]. lia. }
  rewrite Hr; cbn [bind app cur_loc].
  exists c'. split; [reflexivity |]. split; [rewrite Hp; reflexivity | exact Hline].
Qed.

(** A source that starts with a single quote never tokenizes. *)
Lemma tokenize_leading_quote (src : gostring) :
  go_len src ->
  index src 0 = Done "'"%char ->
  exists e, Parser.tokenize src = Done (inr e).
Proof.
  intros Hlen Hq. unfold Parser.tokenize.
  apply tokenize_loop_stuck; [exact Hlen | exact Hq |].
  cbn [ptr cursor0]. unfold len. lia.
Qed.

(** Every token of a successful run of [tokenize] is a Numeric token. *)
Lemma tokenize_tokens_numeric (src : gostring) (tokens : list tok) :
  go_len src ->
  Parser.tokenize src = Done (inl tokens) ->
  Forall (fun t => tt t = numericType) tokens.
Proof.
  intros Hlen H. unfold Parser.tokenize in H.
  destruct (tokenize_loop_numeric (S (length src)) src cursor0 [] Hlen)
    as [r [Hr Hall]]; [cbn; lia | cbn [ptr cursor0]; unfold len; lia |].
  rewrite Hr in H. injection H as ->.
  destruct (Hall tokens eq_refl) as [new [-> Hnew]]. cbn [app].
  eapply Forall_impl; [| exact Hnew]. intros x [_ Hk]; exact Hk.
Qed.

(** The quoted path of [lexIdentifier] hands on the String token of
    [lexCharacterDelimited]. *)
Lemma lexIdentifier_quoted_kind (src : gostring) (ic : cursor) t c :
  go_len src ->
  Parser.lexCharacterDelimited src ic "034" = Done (Some t, c, true) ->
  Parser.lexIdentifier src ic = Done (Some t, c, true) /\ tt t = stringType.
Proof.
  intros Hlen H. unfold Parser.lexIdentifier. rewrite H. cbn [bind].
  split; [reflexivity |].
  pose proof (lexCharacterDelimited_spec src ic "034" Hlen) as Hs.
  rewrite H in Hs. tauto.
Qed.

(** [lexCharacterDelimited] never changes the line of the cursor. *)
Lemma lexCharacterDelimited_loop_line fuel : forall src ic cur d v t c,
  Parser.lexCharacterDelimited_loop fuel src ic cur d v = Done (Some (t, c)) ->
  line (cur_loc c) = line (cur_loc cur).
Proof.
  induction fuel as [| fuel IH]; intros src ic cur d v t c; [discriminate |].
  cbn [Parser.lexCharacterDelimited_loop].
  destruct (ptr cur <? uint (len src)); [| discriminate].
  destruct (index src (ptr cur)) as [x | |]; cbn [bind]; try discriminate.
  destruct (Ascii.eqb x d).
  - match goal with |- context [bind ?m _] => destruct m as [[|] | |] end;
      cbn [bind]; try discriminate.
    + now intros [= _ <-].
    + intros H. apply IH in H. rewrite H. reflexivity.
  - intros H. apply IH in H. rewrite H. reflexivity.
Qed.

Lemma lexCharacterDelimited_line src ic d t c :
  Parser.lexCharacterDelimited src ic d = Done (t, c, true) ->
  line (cur_loc c) = line (cur_loc ic).
Proof.
  unfold Parser.lexCharacterDelimited.
  destruct (slice_from src (ptr ic)) as [r | |]; cbn [bind]; try discriminate.
  destruct (len r =? 0); [discriminate |].
  destruct (index src (ptr ic)) as [x | |]; cbn [bind]; try discriminate.
  destruct (negb (Ascii.eqb x d)); [discriminate |].
  destruct (Parser.lexCharacterDelimited_loop _ _ _ _ _ _) as [[[t' c'] |] | |] eqn:E;
    cbn [bind]; try discriminate.
  intros [= _ <-]. apply lexCharacterDelimited_loop_line in E. rewrite E. reflexivity.
Qed.

Section ParseTotal.

Variable parseStatement : list tok -> Z -> tok -> option Parser.Statement * Z * bool.
Variable tokens : list tok.
Hypothesis Hlen : go_len tokens.
Hypothesis Hprogress : forall c stmt c',
  0 <= c < len tokens ->
  parseStatement tokens c semicolon = (stmt, c', true) ->
  c <= c' <= len tokens.

(** X16: with a statement parser that never moves backwards, the loop of
    [Parse] returns: one unit of fuel for each token and one more. *)
Lemma Parse_loop_total fuel : forall cursor a out,
  0 <= cursor ->
  (Z.to_nat (len tokens - cursor) < fuel)%nat ->
  exists r, Parser.Parse_loop parseStatement fuel tokens cursor a out = Done r.
Proof.
  induction fuel as [| fuel IH]; intros cursor a out H0 Hfuel; [lia |].
  assert (Hmax : len tokens <= max_int) by exact Hlen.
  cbn [Parser.Parse_loop]. rewrite (uint_len _ Hlen).
  destruct (cursor <? len tokens) eqn:Hlt; [| eexists; reflexivity].
  apply Z.ltb_lt in Hlt. fold semicolon.
  destruct (parseStatement tokens cursor semicolon) as [[stmt c'] ok] eqn:Hp.
  assert (Hhelp : forall c msg, 0 <= c <= len tokens ->
            exists l, Parser.helpMessage tokens c msg = Done l).
  { intros c msg Hc. unfold Parser.helpMessage. rewrite (uint_len _ Hlen).
    assert (exists t, (if c <? len tokens then index tokens c
                       else index tokens (uint (c - 1))) = Done t) as [t Et].
    { destruct (c <? len tokens) eqn:E.
      - apply index_in_range. lia.
      - rewrite uint_small by (unfold max_int in *; lia).
        apply index_in_range. lia. }
    rewrite Et; cbn [bind]. eexists; reflexivity. }
  destruct ok; cbn [negb].
  - destruct (Hprogress cursor stmt c' ltac:(lia) Hp) as [Hc1 Hc2].
    rewrite (semicolons_loop_spec (S (length tokens)) tokens c' false Hlen)
      by (unfold len in *; lia).
    cbn [bind orb].
    destruct (0 <? semicolon_run (skipn (Z.to_nat c') tokens))%nat eqn:Hn; cbn [negb].
    + apply IH; [lia |]. apply Nat.ltb_lt in Hn. lia.
    + apply Nat.ltb_ge in Hn.
      replace (semicolon_run (skipn (Z.to_nat c') tokens)) with O by lia.
      rewrite Z.add_0_r.
      destruct (Hhelp c' (str "Expected semi-colon delimiter between statements"))
        as [l Hl]; [lia |].
      rewrite Hl; cbn [bind]. eexists; reflexivity.
  - destruct (Hhelp cursor (str "Expected statement")) as [l Hl]; [lia |].
    rewrite Hl; cbn [bind]. eexists; reflexivity.
Qed.

End ParseTotal.

(** On a quoted and escaped text [lexString] returns the escaped text, not
    the text, and leaves the cursor on the closing quote. *)
Lemma lexString_quote_value (text : gostring) :
  go_len (quote text) ->
  exists c',
    Parser.lexString (quote text) cursor0
    = Done (Some (mkTok (escape text) stringType (mkLoc 0 0)), c', true)
    /\ ptr c' = 1 + len (escape text).
Proof.
  intros Hlen. unfold Parser.lexString, quote, escape in *.
  assert (Hlen' : go_len (quote_with "'" text ++ [])) by now rewrite app_nil_r.
  destruct (lexCharacterDelimited_literal "'" text [] (mkLoc 0 0) Hlen' I)
    as (c' & Hr & Hp & _).
  rewrite app_nil_r in Hr.
  exists c'. split; [exact Hr | exact Hp].
Qed.

(** ** The claims settled by evaluation *)

(** C1: [tokenize] tries the scanners in the order numeric, string, symbol,
    keyword, identifier, so that [select] comes out as a Keyword token.
    The code registers two scanners only: on [select] the tokenizer fails
    at 0:0, although [lexKeyword] recognises the keyword there. *)
Theorem tokenize_select_not_keyword :
  Parser.lexers = [Parser.lexNum; Parser.lexString]
  /\ Parser.tokenize (str "select") = Done (inr (LexError [] (mkLoc 0 0)))
  /\ Parser.lexKeyword (str "select") cursor0
     = Done (Some (mkTok (str "select") keywordType (mkLoc 0 0)),
             mkCursor 6 (mkLoc 0 6), true).
Proof. repeat split; vm_compute; reflexivity. Qed.

(** C2: a text between single quotes with its quotes doubled lexes to one
    String token whose value is the text.  On [a'b] the scanner keeps both
    quotes of the pair, and [tokenize] fails on every quoted literal, the
    cursor being left on the closing quote. *)
Theorem lexString_doubled_quote_kept :
  Parser.lexString (quote (str "a'b")) cursor0
  = Done (Some (mkTok (str "a''b") stringType (mkLoc 0 0)),
          mkCursor 5 (mkLoc 0 5), true)
  /\ Parser.tokenize (quote (str "a'b"))
     = Done (inr (LexError (str "after a''b") (mkLoc 0 5)))
  /\ Parser.tokenize (quote (str "ab"))
     = Done (inr (LexError (str "after ab") (mkLoc 0 3))).
Proof. repeat split; vm_compute; reflexivity. Qed.

(** C3: on a double-quoted literal [lexIdentifier] returns an Identifier
    token that keeps the case as written.  The case is kept, the kind is
    the String kind of [lexCharacterDelimited]; the bare path labels its
    token Identifier. *)
Theorem lexIdentifier_quoted_is_string :
  Parser.lexIdentifier (dquote (str "Foo")) cursor0
  = Done (Some (mkTok (str "Foo") stringType (mkLoc 0 0)),
          mkCursor 4 (mkLoc 0 4), true)
  /\ Parser.lexIdentifier (str "Foo") cursor0
     = Done (Some (mkTok (str "foo") identifierType (mkLoc 0 0)),
             mkCursor 3 (mkLoc 0 3), true).
Proof. repeat split; vm_compute; reflexivity. Qed.

(** C5, as stated: the error of [tokenize] on [1.2.3] is not located at
    the second period (line 0, column 3). *)
Lemma lexError_1_2_3_not_at_period :
  ~ exists hint,
      Parser.tokenize (str "1.2.3") = Done (inr (LexError hint (mkLoc 0 3))).
Proof. intros [hint H]. vm_compute in H. discriminate H. Qed.

(** C5, amended: on [1.2.3] the numeric scanner rejects the second period
    and emits no [1.2] token, [tokenize] fails, [Parse] returns that error,
    and the location reported is 0:0, where the failed scan started. *)
Theorem tokenize_1_2_3 :
  Parser.lexNum (str "1.2.3") cursor0 = Done (no_match cursor0)
  /\ Parser.tokenize (str "1.2.3") = Done (inr (LexError [] (mkLoc 0 0)))
  /\ Error (LexError [] (mkLoc 0 0)) = str "unable to lex tokens, at 0:0"
  /\ forall parseStatement fuel,
       Parser.Parse parseStatement fuel (str "1.2.3")
       = Done (inr (LexError [] (mkLoc 0 0)), []).
Proof.
  split; [vm_compute; reflexivity |].
  split; [vm_compute; reflexivity |].
  split; [vm_compute; reflexivity |].
  intros parseStatement fuel. unfold Parser.Parse.
  replace (Parser.tokenize (str "1.2.3"))
    with (@Done (list tok + error) (inr (LexError [] (mkLoc 0 0))))
    by (vm_compute; reflexivity).
  reflexivity.
Qed.

(** C8: a scan step that consumes a newline increments the line and sets
    the column to zero.  Inside a delimited literal the newline counts as
    one more column: [lexString] leaves line 0, column 3. *)
Theorem lexString_newline_not_counted :
  Parser.lexString ("'" :: "010" :: "a" :: "'" :: nil)%char cursor0
  = Done (Some (mkTok ("010" :: "a" :: nil)%char stringType (mkLoc 0 0)),
          mkCursor 3 (mkLoc 0 3), true).
Proof. vm_compute. reflexivity. Qed.

(** The symbol scanner does count the newline it discards. *)
Lemma lexSymbol_newline (src : gostring) (ic : cursor) :
  index src (ptr ic) = Done "010"%char ->
  Parser.lexSymbol src ic
  = Done (None,
          mkCursor (uint (ptr ic + 1)) (mkLoc (uint (line (cur_loc ic) + 1)) 0),
          true).
Proof. intros H. unfold Parser.lexSymbol. rewrite H. reflexivity. Qed.


(** ** Instances of the theorems with hypotheses *)

Lemma tokenize_values_nonempty_witness :
  go_len (str "12") /\
  exists r, Parser.tokenize (str "12") = Done r /\
    forall tokens, r = inl tokens -> Forall (fun t => value t <> []) tokens.
Proof.
  split; [vm_compute; discriminate |].
  apply tokenize_values_nonempty. vm_compute; discriminate.
Defined.

Lemma scanner_frame_witness :
  go_len (str "select 1") /\
  frame cursor0 (scan keyword (str "select 1") cursor0).
Proof.
  split; [vm_compute; discriminate |].
  apply scanner_frame. vm_compute; discriminate.
Defined.


Lemma Parse_loop_semicolons_witness :
  go_len one_literal_tokens /\
  Parser.Parse_loop parse_one_literal 5 one_literal_tokens 0 (Parser.mkAST []) []
  = Done (inl (Parser.mkAST [Some literal_statement]), []).
Proof.
  assert (H : go_len one_literal_tokens) by (vm_compute; discriminate).
  split; [exact H |].
  destruct (Parse_loop_semicolons parse_one_literal one_literal_tokens 3 0
              (Parser.mkAST []) [] H) as [_ Hstep].
  destruct (Hstep (Some literal_statement) 1) as (_ & _ & Hlast).
  - vm_compute; split; [discriminate | reflexivity].
  - reflexivity.
  - vm_compute; split; discriminate.
  - apply Hlast; [vm_compute; discriminate | reflexivity].
Defined.

(** ** Further properties of the code *)

(** X1: at the end of the input the numeric, delimited and keyword scanners
    report no match; the symbol and identifier scanners index the source
    there and panic. *)
Theorem scan_at_end_of_input (src : gostring) (ic : cursor) (d : byte) :
  go_len src ->
  ptr ic = len src ->
  scan numeric src ic = Done (no_match ic)
  /\ scan (delimited d) src ic = Done (no_match ic)
  /\ scan keyword src ic = Done (no_match ic)
  /\ scan symbol src ic = Panic
  /\ scan identifier src ic = Panic.
Proof.
  intros Hlen Hp. pose proof (len_nonneg src) as H0.
  assert (Hlt : (ptr ic <? uint (len src)) = false).
  { rewrite (uint_len _ Hlen). apply Z.ltb_ge. lia. }
  assert (Hidx : index src (ptr ic) = Panic).
  { unfold index. rewrite Hp, Z.ltb_irrefl, andb_false_r. reflexivity. }
  assert (Hdel : forall d', Parser.lexCharacterDelimited src ic d' = Done (no_match ic)).
  { intros d'. unfold Parser.lexCharacterDelimited, slice_from.
    replace ((0 <=? ptr ic) && (ptr ic <=? len src)) with true
      by (symmetry; rewrite andb_true_iff, !Z.leb_le; lia).
    cbn [bind]. rewrite skipn_all2 by (unfold len in Hp; lia). reflexivity. }
  cbn [scan]. repeat split.
  - unfold Parser.lexNum. cbn [Parser.lexNum_loop]. rewrite Hlt. cbn [bind].
    now rewrite Z.eqb_refl.
  - apply Hdel.
  - unfold Parser.lexKeyword, Parser.longestMatch, Parser.longestMatch_run.
    cbn [Parser.longestMatch_loop Parser.lm_cur]. rewrite Hlt. reflexivity.
  - unfold Parser.lexSymbol. now rewrite Hidx.
  - unfold Parser.lexIdentifier. rewrite Hdel. cbn [bind no_match]. now rewrite Hidx.
Qed.

Lemma scan_at_end_of_input_witness :
  scan numeric (str "1") (mkCursor 1 (mkLoc 0 1))
  = Done (no_match (mkCursor 1 (mkLoc 0 1)))
  /\ scan (delimited "'") (str "1") (mkCursor 1 (mkLoc 0 1))
     = Done (no_match (mkCursor 1 (mkLoc 0 1)))
  /\ scan keyword (str "1") (mkCursor 1 (mkLoc 0 1))
     = Done (no_match (mkCursor 1 (mkLoc 0 1)))
  /\ scan symbol (str "1") (mkCursor 1 (mkLoc 0 1)) = Panic
  /\ scan identifier (str "1") (mkCursor 1 (mkLoc 0 1)) = Panic.
Proof.
  apply (scan_at_end_of_input (str "1") (mkCursor 1 (mkLoc 0 1)) "'").
  - vm_compute; discriminate.
  - reflexivity.
Defined.

Lemma lexCharacterDelimited_loop_open d ic : forall suf pre v cur fuel src,
  src = pre ++ suf ->
  go_len src ->
  ~ In d suf ->
  ptr cur = len pre ->
  (length suf < fuel)%nat ->
  Parser.lexCharacterDelimited_loop fuel src ic cur d v = Done None.
Proof.
  induction suf as [| x suf IH]; intros pre v cur fuel src Hsrc Hlen Hd Hp Hfuel;
    (destruct fuel as [| fuel]; [cbn in Hfuel; lia |]);
    assert (Hmax : len src <= max_int) by exact Hlen;
    pose proof (len_nonneg pre) as Hpre;
    cbn [Parser.lexCharacterDelimited_loop]; rewrite (uint_len _ Hlen).
  - rewrite app_nil_r in Hsrc. subst src.
    now replace (ptr cur <? len pre) with false by (symmetry; apply Z.ltb_ge; lia).
  - assert (Hl : len src = len pre + 1 + len suf) by (rewrite Hsrc; len_simpl; lia).
    pose proof (len_nonneg suf).
    replace (ptr cur <? len src) with true by (symmetry; apply Z.ltb_lt; lia).
    rewrite Hsrc at 1. rewrite (index_at pre suf x (ptr cur) Hp). cbn [bind].
    destruct (Ascii.eqb x d) eqn:E.
    { apply Ascii.eqb_eq in E. subst. exfalso. apply Hd. now left. }
    cbn zeta. apply (IH (pre ++ [x])).
    + rewrite Hsrc, <- app_assoc. reflexivity.
    + exact Hlen.
    + intros Hin. apply Hd. now right.
    + ptr_simpl. len_simpl. lia.
    + cbn [length] in Hfuel. lia.
Qed.

(** X2: a literal that is opened and never closed is no match, whatever the
    text: the scanner returns the starting cursor. *)
Theorem lexCharacterDelimited_unterminated (d : byte) (pre text : gostring)
    (ic : cursor) :
  go_len (pre ++ d :: text) ->
  ptr ic = len pre ->
  ~ In d text ->
  Parser.lexCharacterDelimited (pre ++ d :: text) ic d = Done (no_match ic).
Proof.
  intros Hlen Hp Hd. set (src := pre ++ d :: text) in *.
  assert (Hmax : len src <= max_int) by exact Hlen.
  pose proof (len_nonneg pre) as Hpre. pose proof (len_nonneg text) as Htext.
  assert (Hl : len src = len pre + 1 + len text) by (unfold src; len_simpl; lia).
  unfold Parser.lexCharacterDelimited, slice_from.
  replace ((0 <=? ptr ic) && (ptr ic <=? len src)) with true
    by (symmetry; rewrite andb_true_iff, !Z.leb_le; lia).
  cbn [bind].
  replace (len (skipn (Z.to_nat (ptr ic)) src) =? 0) with false.
  2:{ symmetry. apply Z.eqb_neq. unfold len in *. rewrite length_skipn. lia. }
  unfold src at 1. rewrite (index_at pre text d (ptr ic) Hp). cbn [bind].
  rewrite Ascii.eqb_refl. cbn [negb].
  rewrite (lexCharacterDelimited_loop_open d ic text (pre ++ [d]) []
             (inc_ptr (inc_column ic)) (S (length src)) src).
  - reflexivity.
  - unfold src. now rewrite <- app_assoc.
  - exact Hlen.
  - exact Hd.
  - ptr_simpl. len_simpl. lia.
  - unfold src. rewrite length_app. cbn [length]. lia.
Qed.

Lemma lexCharacterDelimited_unterminated_witness :
  Parser.lexCharacterDelimited (str "x 'abc") (mkCursor 2 (mkLoc 0 2)) "'"
  = Done (no_match (mkCursor 2 (mkLoc 0 2))).
Proof.
  apply (lexCharacterDelimited_unterminated "'" (str "x ") (str "abc")).
  - vm_compute; discriminate.
  - reflexivity.
  - cbn. intros [H | [H | [H | []]]]; discriminate H.
Defined.

(** X3: between two delimiters a text without the delimiter comes out as it
    is: a String token with the text as its value, the cursor on the closing
    delimiter and the line unchanged. *)
Theorem lexCharacterDelimited_plain_text (d : byte) (text tail : gostring)
    (l : loc) :
  go_len (quote_with d text ++ tail) ->
  ~ In d text ->
  no_delimiter_ahead d tail ->
  exists c,
    Parser.lexCharacterDelimited (quote_with d text ++ tail) (mkCursor 0 l) d
    = Done (Some (mkTok text stringType l), c, true)
    /\ ptr c = 1 + len text
    /\ line (cur_loc c) = line l.
Proof.
  intros Hlen Hd Htail.
  destruct (lexCharacterDelimited_literal d text tail l Hlen Htail) as (c & Hr & Hp & Hline).
  rewrite (escape_with_no_delimiter d text Hd) in Hr, Hp.
  exists c. repeat split; assumption.
Qed.

Lemma lexCharacterDelimited_plain_text_witness :
  exists c,
    Parser.lexCharacterDelimited (quote_with "'" (str "It is") ++ str ", 1")
      (mkCursor 0 (mkLoc 0 0)) "'"
    = Done (Some (mkTok (str "It is") stringType (mkLoc 0 0)), c, true)
    /\ ptr c = 1 + len (str "It is")
    /\ line (cur_loc c) = line (mkLoc 0 0).
Proof.
  apply (lexCharacterDelimited_plain_text "'" (str "It is") (str ", 1")).
  - vm_compute; discriminate.
  - cbn. intros H. repeat (destruct H as [H | H]; [discriminate H |]). exact H.
  - cbn. discriminate.
Defined.

Lemma tokenType_eqb_eq a b : tokenType_eqb a b = true <-> a = b.
Proof. destruct a, b; cbn; split; intros H; try reflexivity; discriminate H. Qed.

Lemma tok_eq_spec t x : tok_eq t x = true <-> value t = value x /\ tt t = tt x.
Proof.
  unfold tok_eq. rewrite andb_true_iff, bytes_eqb_eq, tokenType_eqb_eq. reflexivity.
Qed.

(** X4: [expectToken] never panics: past the end of the tokens it answers false,
    and within them it answers true exactly for a token of the template's
    value and kind, whatever the two locations. *)
Theorem expectToken_spec (tokens : list tok) (cursor : Z) (t : tok) :
  go_len tokens ->
  0 <= cursor ->
  exists b,
    Parser.expectToken tokens cursor t = Done b
    /\ (b = true <->
        exists x, nth_error tokens (Z.to_nat cursor) = Some x
                  /\ value x = value t /\ tt x = tt t).
Proof.
  intros Hlen H0. unfold Parser.expectToken. rewrite (uint_len _ Hlen).
  destruct (cursor >=? len tokens) eqn:E.
  - exists false. split; [reflexivity |]. split; [discriminate |].
    intros (x & Hx & _).
    assert (Hn : nth_error tokens (Z.to_nat cursor) = None)
      by (apply nth_error_None; unfold len in E; lia).
    congruence.
  - destruct (index_in_range tokens cursor) as [x Ex]; [lia |].
    rewrite Ex; cbn [bind]. apply index_Done in Ex. destruct Ex as [_ Ex].
    exists (tok_eq t x). split; [reflexivity |].
    rewrite tok_eq_spec. split.
    + intros [Hv Hk]. exists x. auto.
    + intros (y & Hy & Hv & Hk). rewrite Ex in Hy. injection Hy as <-. auto.
Qed.

Lemma expectToken_spec_witness :
  exists b,
    Parser.expectToken one_literal_tokens 1 semicolon = Done b
    /\ (b = true <->
        exists x, nth_error one_literal_tokens (Z.to_nat 1) = Some x
                  /\ value x = value semicolon /\ tt x = tt semicolon).
Proof.
  apply expectToken_spec.
  - vm_compute; discriminate.
  - lia.
Defined.



Lemma lexNum_value (src : gostring) (ic c : cursor) (t : tok) :
  Parser.lexNum src ic = Done (Some t, c, true) ->
  value t = firstn (Z.to_nat (ptr c - ptr ic)) (skipn (Z.to_nat (ptr ic)) src)
  /\ tt t = numericType /\ tok_loc t = cur_loc ic.
Proof.
  unfold Parser.lexNum.
  destruct (Parser.lexNum_loop _ _ _ _ _ _) as [[cur |] | |]; cbn [bind];
    try discriminate.
  destruct (ptr cur =? ptr ic); [discriminate |].
  unfold slice.
  destruct ((0 <=? ptr ic) && (ptr ic <=? ptr cur) && (ptr cur <=? len src));
    cbn [bind]; [| discriminate].
  intros [= <- <-]. auto.
Qed.


Lemma lexNum_loop_break fuel : forall (src : gostring) ic cur pf ef c',
  Parser.lexNum_loop fuel src ic cur pf ef = Done (Some c') ->
  (ptr c' <? uint (len src)) = false
  \/ exists x, index src (ptr c') = Done x /\ isDigit x = false
               /\ Ascii.eqb x "." = false.
Proof.
  induction fuel as [| fuel IH]; intros src ic cur pf ef c'; [discriminate |].
  cbn [Parser.lexNum_loop].
  destruct (ptr cur <? uint (len src)) eqn:Hlt; [| intros [= <-]; now left].
  destruct (index src (ptr cur)) as [x | |] eqn:Ex; cbn [bind]; try discriminate.
  cbn zeta. fold (isDigit x). rewrite ptr_inc_column.
  destruct (ptr cur =? ptr ic).
  { destruct (negb (isDigit x) && negb (Ascii.eqb x ".")); [discriminate | apply IH]. }
  destruct (Ascii.eqb x ".") eqn:Hdot.
  { destruct pf; [discriminate | apply IH]. }
  destruct (Ascii.eqb x "e").
  { destruct ef; [discriminate |].
    destruct (ptr cur =? uint (len src - 1)); [discriminate |].
    destruct (index src (uint (ptr cur + 1))); cbn [bind]; try discriminate.
    apply IH. }
  destruct (isDigit x) eqn:Hd; cbn [negb]; [apply IH |].
  intros [= <-]. right. exists x. rewrite ptr_inc_column. auto.
Qed.

Lemma lexNum_no_start (src : gostring) (ic : cursor) x :
  index src (ptr ic) = Done x ->
  isDigit x = false ->
  Ascii.eqb x "." = false ->
  go_len src ->
  Parser.lexNum src ic = Done (no_match ic).
Proof.
  intros Hi Hd Hdot Hlen. unfold Parser.lexNum. cbn [Parser.lexNum_loop].
  rewrite (uint_len _ Hlen).
  destruct (index_Done _ _ _ Hi) as [Hr _].
  replace (ptr ic <? len src) with true by (symmetry; apply Z.ltb_lt; lia).
  rewrite Hi; cbn [bind]. cbn zeta. fold (isDigit x).
  rewrite ptr_inc_column, Z.eqb_refl, Hd, Hdot. reflexivity.
Qed.

Lemma tokenize_loop_no_start fuel (src : gostring) cur toks x :
  go_len src ->
  index src (ptr cur) = Done x ->
  isDigit x = false ->
  Ascii.eqb x "." = false ->
  (Z.to_nat (len src - ptr cur) < fuel)%nat ->
  exists e, Parser.tokenize_loop fuel src cur toks = Done (inr e).
Proof.
  intros Hlen Hi Hd Hdot Hfuel. destruct fuel as [| fuel]; [lia |].
  destruct (index_Done _ _ _ Hi) as [Hr _].
  cbn [Parser.tokenize_loop]. rewrite (uint_len _ Hlen).
  replace (ptr cur <? len src) with true by (symmetry; apply Z.ltb_lt; lia).
  unfold Parser.lexers. cbn [Parser.try_lexers].
  rewrite (lexNum_no_start src cur x Hi Hd Hdot Hlen). cbn [bind no_match].
  unfold Parser.lexString.
  pose proof (lexCharacterDelimited_spec src cur "'" Hlen) as Hs.
  destruct (Parser.lexCharacterDelimited src cur "'") as [[[t c] ok] | |];
    cbn [bind]; [| lia | contradiction].
  destruct ok; cbn [bind]; [| eexists; reflexivity].
  destruct t as [t |]; [| contradiction].
  destruct Hs as (_ & Hp & Hq & _).
  apply tokenize_loop_stuck; [assumption | assumption | lia].
Qed.

(** X6: a successful run of [tokenize] returns no token, for the empty source,
    or a single Numeric token that is the whole source, located at 0:0: once
    a number ends before the input does, nothing can follow it. *)
Theorem tokenize_single (src : gostring) (tokens : list tok) :
  go_len src ->
  Parser.tokenize src = Done (inl tokens) ->
  (src = [] /\ tokens = [])
  \/ tokens = [mkTok src numericType (mkLoc 0 0)].
Proof.
  intros Hlen. assert (Hmax : len src <= max_int) by exact Hlen.
  unfold Parser.tokenize. cbn [Parser.tokenize_loop ptr cursor0].
  rewrite (uint_len _ Hlen).
  destruct (0 <? len src) eqn:Hne.
  2:{ intros [= <-]. left. split; [| reflexivity].
      destruct src; [reflexivity |]. apply Z.ltb_ge in Hne.
      rewrite len_cons in Hne. pose proof (len_nonneg src). lia. }
  apply Z.ltb_lt in Hne.
  unfold Parser.lexers. cbn [Parser.try_lexers].
  pose proof (lexNum_spec src cursor0 Hlen) as Hn.
  pose proof (lexNum_value src cursor0) as Hval.
  assert (Hbreak : forall t c, Parser.lexNum src cursor0 = Done (Some t, c, true) ->
            ptr c < len src ->
            exists x, index src (ptr c) = Done x /\ isDigit x = false
                      /\ Ascii.eqb x "." = false).
  { intros t c. unfold Parser.lexNum.
    destruct (Parser.lexNum_loop _ _ _ _ _ _) as [[cur |] | |] eqn:El; cbn [bind];
      try discriminate.
    destruct (ptr cur =? ptr cursor0); [discriminate |].
    destruct (slice src (ptr cursor0) (ptr cur)); cbn [bind]; try discriminate.
    intros [= _ <-] Hlt. apply lexNum_loop_break in El.
    destruct El as [El | El]; [| exact El].
    rewrite (uint_len _ Hlen) in El. apply Z.ltb_ge in El. lia. }
  destruct (Parser.lexNum src cursor0) as [[[t c] ok] | |]; cbn [bind];
    [| cbn in Hn; lia | contradiction].
  destruct ok.
  - destruct t as [t |]; [| contradiction].
    destruct Hn as (_ & Hp & Hv & Ht). cbn [bind app].
    destruct (Hval c t eq_refl) as (Hvalue & Hkind & Hloc).
    destruct (Z.eq_dec (ptr c) (len src)) as [Hend | Hmid].
    + assert (Hfuel : exists f, length src = S f).
      { destruct src; [cbn in Hne; lia | eexists; reflexivity]. }
      destruct Hfuel as [f ->]. cbn [Parser.tokenize_loop].
      rewrite (uint_len _ Hlen).
      replace (ptr c <? len src) with false by (symmetry; apply Z.ltb_ge; lia).
      intros [= <-]. right. f_equal.
      destruct t as [v k l]. cbn [value tt tok_loc] in *. subst k l.
      f_equal. rewrite Hvalue. cbn [ptr cursor0 Z.to_nat skipn].
      rewrite Z.sub_0_r, Hend. apply firstn_all2. unfold len. lia.
    + destruct (Hbreak t c eq_refl ltac:(cbn [ptr cursor0] in Hp; lia))
        as (x & Hi & Hd & Hdot).
      destruct (tokenize_loop_no_start (length src) src c [t] x Hlen Hi Hd Hdot)
        as [e He]; [cbn [ptr cursor0] in Hp; unfold len in *; lia |].
      rewrite He. discriminate.
  - assert (c = cursor0) by (destruct t; apply Hn). subst c. clear Hn Hbreak Hval.
    unfold Parser.lexString.
    pose proof (lexCharacterDelimited_spec src cursor0 "'" Hlen) as Hs.
    destruct (Parser.lexCharacterDelimited src cursor0 "'") as [[[t' c'] ok'] | |];
      cbn [bind]; [| cbn in Hs; lia | contradiction].
    destruct ok'; cbn [bind]; [| discriminate].
    destruct t' as [t' |]; [| contradiction].
    destruct Hs as (_ & Hp & Hq & _). cbn [ptr cursor0] in Hp.
    destruct (tokenize_loop_stuck (length src) src c' ([] ++ [t']) Hlen Hq) as [e He];
      [unfold len in *; lia |].
    rewrite He. discriminate.
Qed.

Lemma tokenize_single_witness :
  (str "12.5e-3" = [] /\ [mkTok (str "12.5e-3") numericType (mkLoc 0 0)] = [])
  \/ [mkTok (str "12.5e-3") numericType (mkLoc 0 0)]
     = [mkTok (str "12.5e-3") numericType (mkLoc 0 0)].
Proof.
  apply tokenize_single.
  - vm_compute; discriminate.
  - vm_compute. reflexivity.
Defined.




Lemma to_nat_len {A : Type} (l : list A) : Z.to_nat (len l) = length l.
Proof. unfold len. apply Nat2Z.id. Qed.

Lemma uint_add_l a b : uint (uint a + b) = uint (a + b).
Proof. unfold uint. apply Z.add_mod_idemp_l. lia. Qed.

Lemma isDigit_not_marker x :
  isDigit x = true -> Ascii.eqb x "." = false /\ Ascii.eqb x "e" = false.
Proof.
  intros H. split.
  - destruct (Ascii.eqb x ".") eqn:E; [| reflexivity].
    apply Ascii.eqb_eq in E. subst. discriminate H.
  - destruct (Ascii.eqb x "e") eqn:E; [| reflexivity].
    apply Ascii.eqb_eq in E. subst. discriminate H.
Qed.

Lemma lexNum_loop_digits (src tail : gostring) (ic : cursor) :
  forall ds pre cur pf ef fuel,
  src = pre ++ ds ++ tail ->
  go_len src ->
  Forall (fun c => isDigit c = true) ds ->
  numeric_stop tail ->
  ptr cur = len pre ->
  ptr ic <= ptr cur ->
  (ds <> [] \/ ptr cur <> ptr ic) ->
  0 <= column (cur_loc cur) < 18446744073709551616 ->
  (length ds < fuel)%nat ->
  Parser.lexNum_loop fuel src ic cur pf ef
  = Done (Some (mkCursor (ptr cur + len ds)
                  (mkLoc (line (cur_loc cur))
                     (uint (column (cur_loc cur) + len ds + stop_column tail))))).
Proof.
  induction ds as [| x ds IH];
    intros pre cur pf ef fuel Hsrc Hlen Hds Hstop Hp Hic Hfirst Hcol Hfuel;
    (destruct fuel as [| fuel]; [cbn in Hfuel; lia |]);
    assert (Hmax : len src <= max_int) by exact Hlen;
    pose proof (len_nonneg pre) as Hpre; pose proof (len_nonneg tail) as Htl;
    cbn [Parser.lexNum_loop]; rewrite (uint_len _ Hlen).
  - destruct Hfirst as [Hfirst | Hfirst]; [congruence |].
    cbn [app] in Hsrc. len_simpl. rewrite !Z.add_0_r.
    destruct tail as [| x tail].
    + rewrite app_nil_r in Hsrc. subst src.
      replace (ptr cur <? len pre) with false by (symmetry; apply Z.ltb_ge; lia).
      cbn [stop_column]. rewrite Z.add_0_r, uint_small by exact Hcol.
      destruct cur as [p [ln col]]. reflexivity.
    + assert (Hl : len src = len pre + 1 + len tail) by (rewrite Hsrc; len_simpl; lia).
      rewrite len_cons in Htl. pose proof (len_nonneg tail).
      replace (ptr cur <? len src) with true by (symmetry; apply Z.ltb_lt; lia).
      rewrite Hsrc at 1. rewrite (index_at pre tail x (ptr cur) Hp). cbn [bind].
      cbn zeta. rewrite ptr_inc_column.
      replace (ptr cur =? ptr ic) with false by (symmetry; apply Z.eqb_neq; lia).
      destruct Hstop as (Hd & Hdot & He). fold (isDigit x).
      rewrite Hdot, He, Hd. cbn [negb stop_column].
      destruct cur as [p [ln col]]. reflexivity.
  - cbn [app] in Hsrc. pose proof (len_nonneg ds).
    assert (Hl : len src = len pre + 1 + len ds + len tail)
      by (rewrite Hsrc; len_simpl; lia).
    replace (ptr cur <? len src) with true by (symmetry; apply Z.ltb_lt; lia).
    rewrite Hsrc at 1. rewrite (index_at pre (ds ++ tail) x (ptr cur) Hp). cbn [bind].
    cbn zeta. rewrite ptr_inc_column. fold (isDigit x).
    inversion Hds as [| ? ? Hx Hds']; subst.
    destruct (isDigit_not_marker x Hx) as [Hdot He].
    assert (Hnext : forall pf' ef',
      Parser.lexNum_loop fuel (pre ++ x :: ds ++ tail) ic (inc_ptr (inc_column cur)) pf' ef'
      = Done (Some (mkCursor (ptr cur + len (x :: ds))
                      (mkLoc (line (cur_loc cur))
                         (uint (column (cur_loc cur) + len (x :: ds) + stop_column tail)))))).
    { intros pf' ef'.
      rewrite (IH (pre ++ [x]) (inc_ptr (inc_column cur)) pf' ef' fuel).
      - ptr_simpl. len_simpl. cbn [inc_ptr inc_column cur_loc line column].
        replace (uint (column (cur_loc cur) + 1) + len ds + stop_column tail)
          with (uint (column (cur_loc cur) + 1) + (len ds + stop_column tail)) by lia.
        rewrite uint_add_l.
        replace (ptr cur + 1 + len ds) with (ptr cur + (1 + len ds)) by lia.
        replace (column (cur_loc cur) + 1 + (len ds + stop_column tail))
          with (column (cur_loc cur) + (1 + len ds) + stop_column tail) by lia.
        reflexivity.
      - now rewrite <- app_assoc.
      - exact Hlen.
      - exact Hds'.
      - exact Hstop.
      - ptr_simpl. len_simpl. lia.
      - ptr_simpl. lia.
      - right. ptr_simpl. lia.
      - cbn [inc_ptr inc_column cur_loc column]. apply uint_range.
      - cbn [length] in Hfuel. lia. }
    destruct (ptr cur =? ptr ic).
    + rewrite Hx, Hdot. cbn [negb andb]. apply Hnext.
    + rewrite Hdot, He, Hx. cbn [negb]. apply Hnext.
Qed.

(** X8: a run of decimal digits is one Numeric token with the digits as its
    value, located at the starting cursor; the cursor ends behind the digits,
    and its column is one too far when a byte follows the number. *)
Theorem lexNum_digits (pre ds tail : gostring) (ic : cursor) :
  go_len (pre ++ ds ++ tail) ->
  ptr ic = len pre ->
  0 <= column (cur_loc ic) < 18446744073709551616 ->
  ds <> [] ->
  Forall (fun c => isDigit c = true) ds ->
  numeric_stop tail ->
  Parser.lexNum (pre ++ ds ++ tail) ic
  = Done (Some (mkTok ds numericType (cur_loc ic)),
          mkCursor (ptr ic + len ds)
            (mkLoc (line (cur_loc ic))
               (uint (column (cur_loc ic) + len ds + stop_column tail))),
          true).
Proof.
  intros Hlen Hp Hcol Hne Hds Hstop. unfold Parser.lexNum.
  rewrite (lexNum_loop_digits (pre ++ ds ++ tail) tail ic ds pre ic false false);
    try assumption; try reflexivity; try lia; [| now left |].
  - cbn [bind ptr]. pose proof (len_nonneg ds). pose proof (len_nonneg pre).
    assert (0 < len ds) by (destruct ds; [congruence | rewrite len_cons; pose proof (len_nonneg ds); lia]).
    replace (ptr ic + len ds =? ptr ic) with false by (symmetry; apply Z.eqb_neq; lia).
    unfold slice.
    replace ((0 <=? ptr ic) && (ptr ic <=? ptr ic + len ds)
             && (ptr ic + len ds <=? len (pre ++ ds ++ tail))) with true.
    2:{ symmetry. rewrite !andb_true_iff, !Z.leb_le. len_simpl.
        pose proof (len_nonneg tail). lia. }
    cbn [bind].
    replace (ptr ic + len ds - ptr ic) with (len ds) by lia.
    rewrite Hp, !to_nat_len.
    rewrite skipn_app, skipn_all, Nat.sub_diag. cbn [skipn app].
    rewrite firstn_app, firstn_all, Nat.sub_diag. cbn [firstn].
    now rewrite app_nil_r.
  - rewrite !length_app. lia.
Qed.

Lemma lexNum_digits_witness :
  Parser.lexNum (str "(" ++ str "42" ++ str ")") (mkCursor 1 (mkLoc 0 1))
  = Done (Some (mkTok (str "42") numericType (mkLoc 0 1)),
          mkCursor (1 + len (str "42"))
            (mkLoc 0 (uint (1 + len (str "42") + stop_column (str ")")))),
          true).
Proof.
  apply (lexNum_digits (str "(") (str "42") (str ")") (mkCursor 1 (mkLoc 0 1))).
  - vm_compute; discriminate.
  - reflexivity.
  - cbn; lia.
  - discriminate.
  - repeat constructor.
  - cbn. auto.
Defined.

(** X9: a source of decimal digits tokenizes to one Numeric token, the source
    itself. *)
Theorem tokenize_digits (ds : gostring) :
  go_len ds ->
  ds <> [] ->
  Forall (fun c => isDigit c = true) ds ->
  Parser.tokenize ds = Done (inl [mkTok ds numericType (mkLoc 0 0)]).
Proof.
  intros Hlen Hne Hds. assert (Hmax : len ds <= max_int) by exact Hlen.
  assert (Hpos : 0 < len ds).
  { destruct ds; [congruence | rewrite len_cons; pose proof (len_nonneg ds); lia]. }
  assert (Hnum := lexNum_loop_digits ds [] cursor0 ds [] cursor0 false false
                    (S (length ds))).
  unfold Parser.tokenize.
  cbn [Parser.tokenize_loop ptr cursor0]. rewrite (uint_len _ Hlen).
  replace (0 <? len ds) with true by (symmetry; apply Z.ltb_lt; lia).
  unfold Parser.lexers. cbn [Parser.try_lexers]. unfold Parser.lexNum.
  rewrite Hnum; try assumption; try reflexivity; try (cbn; lia);
    [| now rewrite app_nil_r | now left].
  cbn [bind ptr cursor0 cur_loc Z.add].
  replace (len ds =? 0) with false by (symmetry; apply Z.eqb_neq; lia).
  unfold slice.
  replace ((0 <=? 0) && (0 <=? len ds) && (len ds <=? len ds)) with true
    by (symmetry; rewrite !andb_true_iff, !Z.leb_le; lia).
  cbn [bind app Z.to_nat skipn]. rewrite Z.sub_0_r.
  rewrite to_nat_len, firstn_all.
  destruct (length ds) as [| n] eqn:Hn; [unfold len in Hpos; lia |].
  cbn [Parser.tokenize_loop ptr]. rewrite (uint_len _ Hlen).
  replace (len ds <? len ds) with false by (symmetry; apply Z.ltb_irrefl).
  reflexivity.
Qed.

Lemma tokenize_digits_witness :
  Parser.tokenize (str "2024") = Done (inl [mkTok (str "2024") numericType (mkLoc 0 0)]).
Proof.
  apply tokenize_digits.
  - vm_compute; discriminate.
  - discriminate.
  - repeat constructor.
Defined.

Lemma symbols_match (c : byte) :
  Parser.match_options Parser.symbols 0 (Parser.ToLower_byte c) 1 [] []
  = Done ([0; 1; 2; 3; 4], if is_symbol c then [c] else []).
Proof.
  destruct c as [[] [] [] [] [] [] [] []]; vm_compute; reflexivity.
Qed.

Lemma longestMatch_symbols (src : gostring) (ic : cursor) (c : byte) :
  go_len src ->
  index src (ptr ic) = Done c ->
  Parser.longestMatch src ic Parser.symbols
  = Done (if is_symbol c then [c] else []).
Proof.
  intros Hlen Hi. assert (Hmax : len src <= max_int) by exact Hlen.
  destruct (index_Done _ _ _ Hi) as [Hr _].
  unfold Parser.longestMatch, Parser.longestMatch_run.
  cbn [Parser.longestMatch_loop Parser.lm_cur Parser.lm_value Parser.lm_skipList
       Parser.lm_match].
  rewrite (uint_len _ Hlen).
  replace (ptr ic <? len src) with true by (symmetry; apply Z.ltb_lt; lia).
  rewrite Hi. cbn [bind app].
  rewrite ptr_inc_ptr by (unfold max_int in *; lia).
  replace (uint (ptr ic + 1 - ptr ic)) with 1
    by (replace (ptr ic + 1 - ptr ic) with 1 by lia; reflexivity).
  rewrite symbols_match. cbn [bind fst snd Parser.lm_skipList].
  reflexivity.
Qed.

(** X10: the symbol scanner looks at one byte: a newline, a tab or a space is
    consumed without a token (the newline starts a new line); one of
    [, ( ) ; *] is a Symbol token of that byte, whatever follows; any other
    byte is no match. *)
Theorem lexSymbol_one_byte (src : gostring) (ic : cursor) (c : byte) :
  go_len src ->
  index src (ptr ic) = Done c ->
  (c = "010"%char ->
     Parser.lexSymbol src ic
     = Done (None,
             mkCursor (ptr ic + 1) (mkLoc (uint (line (cur_loc ic) + 1)) 0), true))
  /\ (c = "009"%char \/ c = " "%char ->
        Parser.lexSymbol src ic = Done (None, advance ic 1, true))
  /\ (is_symbol c = true ->
        Parser.lexSymbol src ic
        = Done (Some (mkTok [c] symbolType (cur_loc ic)), advance ic 1, true))
  /\ (c <> "010"%char -> c <> "009"%char -> c <> " "%char -> is_symbol c = false ->
        Parser.lexSymbol src ic = Done (no_match ic)).
Proof.
  intros Hlen Hi. assert (Hmax : len src <= max_int) by exact Hlen.
  destruct (index_Done _ _ _ Hi) as [Hr _].
  assert (Hp : uint (ptr ic + 1) = ptr ic + 1) by (apply uint_succ; lia).
  pose proof (longestMatch_symbols src ic c Hlen Hi) as Hm.
  unfold Parser.lexSymbol. rewrite Hi. cbn [bind]. cbn zeta.
  split; [| split; [| split]].
  - intros ->. cbn [Ascii.eqb Bool.eqb]. unfold set_column, inc_line, inc_column, inc_ptr.
    cbn [ptr cur_loc line column]. now rewrite Hp.
  - intros [-> | ->]; cbn [Ascii.eqb Bool.eqb]; unfold advance, inc_column, inc_ptr;
      cbn [ptr cur_loc line column]; now rewrite Hp.
  - intros Hs. rewrite Hm, Hs.
    assert (Hws : Ascii.eqb c "010" = false /\ Ascii.eqb c "009" = false
                  /\ Ascii.eqb c " " = false).
    { repeat split; (destruct (Ascii.eqb c _) eqn:E; [| reflexivity]);
        apply Ascii.eqb_eq in E; subst; discriminate Hs. }
    destruct Hws as (-> & -> & ->). cbn [bind].
    replace (bytes_eqb [c] []) with false by reflexivity.
    unfold advance, set_column, set_ptr, inc_column, inc_ptr.
    cbn [ptr cur_loc line column]. len_simpl.
    change (uint (1 + 0)) with 1. now rewrite Hp.
  - intros Hn Ht Hsp Hs. rewrite Hm, Hs.
    replace (Ascii.eqb c "010") with false by (symmetry; now apply Ascii.eqb_neq).
    replace (Ascii.eqb c "009") with false by (symmetry; now apply Ascii.eqb_neq).
    replace (Ascii.eqb c " ") with false by (symmetry; now apply Ascii.eqb_neq).
    reflexivity.
Qed.

Lemma lexSymbol_one_byte_witness :
  Parser.lexSymbol (str "a;b") (mkCursor 1 (mkLoc 0 1))
  = Done (Some (mkTok (str ";") symbolType (mkLoc 0 1)),
          advance (mkCursor 1 (mkLoc 0 1)) 1, true).
Proof.
  apply (lexSymbol_one_byte (str "a;b") (mkCursor 1 (mkLoc 0 1)) ";").
  - vm_compute; discriminate.
  - reflexivity.
  - reflexivity.
Defined.

Lemma lexIdentifier_loop_run (src tail : gostring) :
  forall more pre cur v fuel,
  src = pre ++ more ++ tail ->
  go_len src ->
  Forall (fun c => isIdentifierByte c = true) more ->
  identifier_stop tail ->
  ptr cur = len pre ->
  (length more < fuel)%nat ->
  Parser.lexIdentifier_loop fuel src cur v
  = Done (v ++ more,
          mkCursor (ptr cur + len more)
            (mkLoc (line (cur_loc cur))
               (Nat.iter (length more) (fun col => uint (col + 1))
                  (column (cur_loc cur))))).
Proof.
  induction more as [| x more IH];
    intros pre cur v fuel Hsrc Hlen Hrun Hstop Hp Hfuel;
    (destruct fuel as [| fuel]; [cbn in Hfuel; lia |]);
    assert (Hmax : len src <= max_int) by exact Hlen;
    pose proof (len_nonneg pre) as Hpre; pose proof (len_nonneg tail) as Htl;
    cbn [Parser.lexIdentifier_loop]; rewrite (uint_len _ Hlen).
  - cbn [app] in Hsrc. len_simpl. rewrite Z.add_0_r, app_nil_r. cbn [length Nat.iter].
    destruct tail as [| x tail].
    + rewrite app_nil_r in Hsrc. subst src.
      replace (ptr cur <? len pre) with false by (symmetry; apply Z.ltb_ge; lia).
      destruct cur as [p [ln col]]. reflexivity.
    + assert (Hl : len src = len pre + 1 + len tail) by (rewrite Hsrc; len_simpl; lia).
      rewrite len_cons in Htl. pose proof (len_nonneg tail).
      replace (ptr cur <? len src) with true by (symmetry; apply Z.ltb_lt; lia).
      rewrite Hsrc at 1. rewrite (index_at pre tail x (ptr cur) Hp). cbn [bind].
      cbn in Hstop. unfold isIdentifierByte in Hstop. rewrite Hstop.
      destruct cur as [p [ln col]]. reflexivity.
  - cbn [app] in Hsrc. pose proof (len_nonneg more).
    assert (Hl : len src = len pre + 1 + len more + len tail)
      by (rewrite Hsrc; len_simpl; lia).
    replace (ptr cur <? len src) with true by (symmetry; apply Z.ltb_lt; lia).
    rewrite Hsrc at 1. rewrite (index_at pre (more ++ tail) x (ptr cur) Hp). cbn [bind].
    inversion Hrun as [| ? ? Hx Hrun']; subst.
    unfold isIdentifierByte in Hx. rewrite Hx. cbn zeta.
    rewrite (IH (pre ++ [x]) (inc_ptr (inc_column cur)) (v ++ [x]) fuel).
    + ptr_simpl. len_simpl. cbn [inc_ptr inc_column cur_loc line column length].
      rewrite <- app_assoc. cbn [app].
      replace (ptr cur + 1 + len more) with (ptr cur + (1 + len more)) by lia.
      rewrite Nat.iter_succ_r. reflexivity.
    + now rewrite <- app_assoc.
    + exact Hlen.
    + exact Hrun'.
    + exact Hstop.
    + ptr_simpl. len_simpl. lia.
    + cbn [length] in Hfuel. lia.
Qed.

Lemma iter_column n : forall col,
  0 <= col < 18446744073709551616 ->
  Nat.iter n (fun c => uint (c + 1)) col = uint (col + Z.of_nat n).
Proof.
  induction n as [| n IH]; intros col Hcol.
  - cbn [Nat.iter]. rewrite Z.add_0_r. symmetry. now apply uint_small.
  - rewrite Nat.iter_succ_r, IH by apply uint_range.
    rewrite uint_add_l. f_equal. lia.
Qed.

(** X11: a bare identifier: a letter and the longest run of letters, digits, [$]
    and [_] behind it make one Identifier token, its value in lower case,
    located at the starting cursor; the cursor ends behind the run. *)
Theorem lexIdentifier_bare (pre more tail : gostring) (c : byte) (ic : cursor) :
  go_len (pre ++ c :: more ++ tail) ->
  ptr ic = len pre ->
  Parser.isAlphabetical c = true ->
  Forall (fun x => isIdentifierByte x = true) more ->
  identifier_stop tail ->
  Parser.lexIdentifier (pre ++ c :: more ++ tail) ic
  = Done (Some (mkTok (Parser.ToLower (c :: more)) identifierType (cur_loc ic)),
          advance ic (1 + len more), true).
Proof.
  intros Hlen Hp Hc Hrun Hstop.
  set (src := pre ++ c :: more ++ tail) in *.
  assert (Hmax : len src <= max_int) by exact Hlen.
  pose proof (len_nonneg pre) as Hpre. pose proof (len_nonneg more) as Hr.
  pose proof (len_nonneg tail) as Htl.
  assert (Hl : len src = len pre + 1 + len more + len tail)
    by (unfold src; len_simpl; lia).
  assert (Hi : index src (ptr ic) = Done c) by (apply index_at; exact Hp).
  assert (Hq : Ascii.eqb c "034" = false).
  { destruct (Ascii.eqb c "034") eqn:E; [| reflexivity].
    apply Ascii.eqb_eq in E. subst. discriminate Hc. }
  unfold Parser.lexIdentifier, Parser.lexCharacterDelimited, slice_from.
  replace ((0 <=? ptr ic) && (ptr ic <=? len src)) with true
    by (symmetry; rewrite andb_true_iff, !Z.leb_le; lia).
  cbn [bind].
  replace (len (skipn (Z.to_nat (ptr ic)) src) =? 0) with false.
  2:{ symmetry. apply Z.eqb_neq. unfold len in *. rewrite length_skipn. lia. }
  rewrite Hi. cbn [bind]. rewrite Hq. cbn [negb bind no_match]. rewrite Hc. cbn [negb].
  rewrite (lexIdentifier_loop_run src tail more (pre ++ [c])
             (inc_column (inc_ptr ic)) [c] (S (length src))).
  - cbn [bind app].
    replace (len (c :: more) =? 0) with false
      by (symmetry; apply Z.eqb_neq; rewrite len_cons; lia).
    unfold advance. ptr_simpl. cbn [inc_column inc_ptr cur_loc line column].
    rewrite iter_column by apply uint_range. rewrite uint_add_l.
    replace (ptr ic + 1 + len more) with (ptr ic + (1 + len more)) by lia.
    replace (column (cur_loc ic) + 1 + Z.of_nat (length more))
      with (column (cur_loc ic) + (1 + len more)) by (unfold len; lia).
    reflexivity.
  - unfold src. now rewrite <- app_assoc.
  - exact Hlen.
  - exact Hrun.
  - exact Hstop.
  - ptr_simpl. len_simpl. lia.
  - unfold src. rewrite !length_app. cbn [length]. rewrite length_app. lia.
Qed.

Lemma lexIdentifier_bare_witness :
  Parser.lexIdentifier (str "from " ++ "T"%char :: str "bl_1" ++ str ";")
    (mkCursor 5 (mkLoc 0 5))
  = Done (Some (mkTok (Parser.ToLower ("T"%char :: str "bl_1")) identifierType
                  (mkLoc 0 5)),
          advance (mkCursor 5 (mkLoc 0 5)) (1 + len (str "bl_1")), true).
Proof.
  apply (lexIdentifier_bare (str "from ") (str "bl_1") (str ";") "T").
  - vm_compute; discriminate.
  - reflexivity.
  - reflexivity.
  - repeat constructor.
  - reflexivity.
Defined.

Lemma skip_list_not_full (sl : list Z) (n : nat) (idx : nat) :
  NoDup sl ->
  (forall x, In x sl -> 0 <= x < Z.of_nat n) ->
  (idx < n)%nat ->
  ~ In (Z.of_nat idx) sl ->
  length sl <> n.
Proof.
  intros Hnd Hr Hidx Hnin.
  set (all := map Z.of_nat (seq 0 n)).
  assert (Hlen : length all = n) by (unfold all; now rewrite length_map, length_seq).
  assert (H1 : incl (Z.of_nat idx :: sl) all).
  { intros x [<- | Hx]; unfold all; apply in_map_iff.
    - exists idx. split; [reflexivity | apply in_seq; lia].
    - specialize (Hr x Hx). exists (Z.to_nat x). split; [lia | apply in_seq; lia]. }
  assert (Hnd' : NoDup (Z.of_nat idx :: sl)) by (constructor; assumption).
  pose proof (NoDup_incl_length Hnd' H1) as Hle. cbn [length] in Hle. lia.
Qed.

Lemma candidate_prefix src ic k j :
  (k <= j)%nat ->
  exists x, candidate src ic j = candidate src ic k ++ x.
Proof.
  intros H. replace j with (k + (j - k))%nat by lia.
  rewrite candidate_add. eexists; reflexivity.
Qed.

Lemma candidate_single_bytes src ic j :
  (j <= length (remaining src ic))%nat ->
  length (candidate src ic j) = j ->
  forall i, (i <= j)%nat -> length (candidate src ic i) = i.
Proof.
  intros Hj Hlenj i Hi.
  pose proof (candidate_length src ic i ltac:(lia)) as Hge.
  replace j with (i + (j - i))%nat in Hlenj by lia.
  rewrite candidate_add, length_app in Hlenj.
  pose proof (flat_map_ToLower_length (firstn (j - i) (skipn i (remaining src ic)))) as Hl.
  rewrite length_firstn, length_skipn in Hl. lia.
Qed.

Section Reach.

Variables (src : gostring) (ic : cursor) (options : list gostring).
Hypothesis Hlen : go_len src.
Hypothesis Hic : 0 <= ptr ic.

Variables (idx : nat) (o : gostring).
Hypothesis Hidx : nth_error options idx = Some o.
Hypothesis Ho : o = candidate src ic (length o).
Hypothesis Hfit : (length o <= length (remaining src ic))%nat.

(** An entry that spells the next bytes stays off the skip list until the
    loop has consumed as many bytes as the entry has, and from then on the
    match is at least as long. *)
Lemma longestMatch_loop_reach fuel : forall k st st',
  loop_inv src ic options k st ->
  (length (remaining src ic) - k < fuel)%nat ->
  ((k < length o)%nat -> ~ In (Z.of_nat idx) (Parser.lm_skipList st)) ->
  ((length o <= k)%nat -> (length o <= length (Parser.lm_match st))%nat) ->
  Parser.longestMatch_loop fuel src ic options st = Done st' ->
  (length o <= length (Parser.lm_match st'))%nat.
Proof.
  induction fuel as [| fuel IH]; intros k st st' Hinv Hfuel Halive Hdone; [lia |].
  assert (Hmax : len src <= max_int) by exact Hlen.
  pose proof Hinv as (Hv & Hp & Hkr & Hnd & Hrange & Hgood & Hlenk & Hlive & Hdead).
  pose proof (remaining_length src ic) as Hrl.
  cbn [Parser.longestMatch_loop]. cbn zeta.
  rewrite (uint_len _ Hlen).
  destruct (ptr (Parser.lm_cur st) <? len src) eqn:Hlt.
  2:{ intros [= <-]. apply Hdone. apply Z.ltb_ge in Hlt. lia. }
  apply Z.ltb_lt in Hlt.
  assert (Hk : (k < length (remaining src ic))%nat) by lia.
  destruct (candidate_step src ic k Hic Hk) as (c & Ec & Hc).
  rewrite Hp, Ec; cbn [bind].
  rewrite Hv, <- Hc.
  assert (Hcur : ptr (inc_ptr (Parser.lm_cur st)) = ptr ic + Z.of_nat (S k)).
  { rewrite ptr_inc_ptr by (unfold max_int in *; lia). lia. }
  rewrite Hcur.
  replace (uint (ptr ic + Z.of_nat (S k) - ptr ic)) with (Z.of_nat (S k))
    by (rewrite uint_small; unfold max_int in *; lia).
  destruct (match_options_spec options 0 (candidate src ic (S k)) (Z.of_nat (S k))
              (Parser.lm_skipList st) (Parser.lm_match st)) as (sl' & m' & Hr & Hpost);
    [lia | |].
  { intros i x Hn Hnin. destruct (Hlive i x Hn Hnin) as [_ Hl]. unfold len. lia. }
  rewrite Hr; cbn [bind fst snd Parser.lm_skipList].
  pose proof Hpost as (HA & HB & HC & HD & HE).
  (* the match after this step *)
  assert (Hdone' : (length o <= S k)%nat -> (length o <= length m')%nat).
  { intros Hle. destruct (Nat.eq_dec (length o) (S k)) as [E | E].
    - apply (HE idx o Hidx); [apply Halive; lia | now rewrite Ho, E].
    - specialize (Hdone ltac:(lia)). lia. }
  assert (Halive' : (S k < length o)%nat -> ~ In (Z.of_nat idx) sl').
  { intros Hlt' Hin. apply HA in Hin.
    destruct Hin as [Hin | (i & x & Hi & Hn & _ & Hs)]; [apply Halive in Hin; [exact Hin | lia] |].
    assert (i = idx) by lia. subst i. assert (x = o) by congruence. subst x.
    pose proof (candidate_single_bytes src ic (length o) Hfit
                  ltac:(now rewrite <- Ho) (S k) ltac:(lia)) as Hone.
    destruct (candidate_prefix src ic (S k) (length o) ltac:(lia)) as [x Hx].
    rewrite <- Ho in Hx.
    destruct Hs as [Hs | [Hs | Hs]].
    - apply (f_equal (@length _)) in Hs. lia.
    - unfold len in Hs. lia.
    - apply Hs. rewrite Nat2Z.id. rewrite Hx at 1.
      rewrite firstn_app, firstn_all2 by lia.
      rewrite Hone, Nat.sub_diag. cbn [firstn]. now rewrite app_nil_r. }
  destruct (len sl' =? len options) eqn:Hfull.
  - intros [= <-]. cbn [Parser.lm_match].
    destruct (Nat.le_gt_cases (length o) (S k)) as [Hle | Hgt]; [now apply Hdone' |].
    exfalso. apply Z.eqb_eq in Hfull. unfold len in Hfull.
    assert (Hnd' : NoDup sl') by auto.
    refine (skip_list_not_full sl' (length options) idx Hnd' _ _ (Halive' Hgt) _); [| | lia].
    + intros x Hx. apply HA in Hx. destruct Hx as [Hx | (i & y & -> & Hn & _)].
      * apply Hrange in Hx. unfold len in Hx. lia.
      * assert (i < length options)%nat by (apply nth_error_Some; congruence). lia.
    + apply nth_error_Some. congruence.
  - intros Hrun.
    match type of Hrun with
    | Parser.longestMatch_loop _ _ _ _ ?s = _ =>
        apply (IH (S k) s st'); [| lia | exact Halive' | exact Hdone' | exact Hrun]
    end.
    apply (loop_inv_step src ic options k st); try assumption.
    apply Z.eqb_neq in Hfull. unfold len in Hfull. lia.
Qed.

End Reach.

Lemma longestMatch_finds_entry (src : gostring) (ic : cursor)
    (options : list gostring) (o : gostring) :
  go_len src ->
  0 <= ptr ic ->
  Forall (fun e : gostring => e <> []) options ->
  In o options ->
  (length o <= length (remaining src ic))%nat ->
  o = candidate src ic (length o) ->
  exists st j,
    Parser.longestMatch_run src ic options = Done st
    /\ In (Parser.lm_match st) options
    /\ Parser.lm_match st = candidate src ic j
    /\ (length o <= j)%nat.
Proof.
  intros Hlen Hic Hne Hin Hfit Ho.
  destruct (In_nth_error _ _ Hin) as [idx Hidx].
  assert (Hpos : (1 <= length o)%nat).
  { rewrite Forall_forall in Hne. specialize (Hne o Hin).
    destruct o; [congruence | cbn; lia]. }
  destruct (longestMatch_loop_spec src ic options Hlen Hic (S (length src)) 0
              (Parser.mkMatchState [] [] [] ic))
    as (st & Hr & k & Hp & Hk & Hm & Hmax).
  { now apply loop_inv_init. }
  { unfold remaining. rewrite length_skipn. lia. }
  pose proof (longestMatch_loop_reach src ic options Hlen Hic idx o Hidx Ho Hfit
                (S (length src)) 0 (Parser.mkMatchState [] [] [] ic) st) as Hreach.
  cbn [Parser.lm_skipList Parser.lm_match In] in Hreach.
  assert (Hge : (length o <= length (Parser.lm_match st))%nat).
  { apply Hreach; [now apply loop_inv_init | | tauto | lia | exact Hr].
    unfold remaining. rewrite length_skipn. lia. }
  destruct Hm as [E | (Hinm & j & Hj & E)]; [rewrite E in Hge; cbn in Hge; lia |].
  exists st, j. split; [exact Hr |]. split; [exact Hinm |]. split; [exact E |].
  destruct (Nat.le_gt_cases (length o) j) as [H | H]; [exact H | exfalso].
  pose proof (candidate_single_bytes src ic (length o) Hfit
                ltac:(now rewrite <- Ho) j ltac:(lia)) as Hone.
  rewrite E, Hone in Hge. lia.
Qed.

(** X12: an entry that spells the next bytes of the input, lower-cased, is found:
    the result of [longestMatch] is that entry or an entry that goes on
    from it. *)
Theorem longestMatch_finds (src : gostring) (ic : cursor)
    (options : list gostring) (o : gostring) :
  go_len src ->
  0 <= ptr ic ->
  Forall (fun e : gostring => e <> []) options ->
  In o options ->
  (length o <= length (remaining src ic))%nat ->
  o = candidate src ic (length o) ->
  exists m x, Parser.longestMatch src ic options = Done m
              /\ In m options /\ m = o ++ x.
Proof.
  intros Hlen Hic Hne Hin Hfit Ho.
  destruct (longestMatch_finds_entry src ic options o Hlen Hic Hne Hin Hfit Ho)
    as (st & j & Hr & Hinm & E & Hoj).
  destruct (candidate_prefix src ic (length o) j Hoj) as [x Hx].
  exists (Parser.lm_match st), x.
  unfold Parser.longestMatch. rewrite Hr. cbn [bind].
  split; [reflexivity |]. split; [exact Hinm |].
  rewrite E, Hx, <- Ho. reflexivity.
Qed.

Lemma longestMatch_finds_witness :
  exists m x, Parser.longestMatch (str "INTO x") cursor0 in_into_int = Done m
              /\ In m in_into_int /\ m = str "in" ++ x.
Proof.
  apply longestMatch_finds.
  - vm_compute; discriminate.
  - cbn; lia.
  - repeat constructor; discriminate.
  - now left.
  - cbn; lia.
  - reflexivity.
Defined.

Lemma keywords_prefix_free k m x :
  In k Parser.keywords -> In m Parser.keywords -> m = k ++ x -> m = k.
Proof.
  unfold Parser.keywords. cbn [In]. intros Hk Hm E.
  repeat (destruct Hk as [<- | Hk];
          [ repeat (destruct Hm as [<- | Hm];
                    [ first [reflexivity | vm_compute in E; discriminate E] |]);
            contradiction |]).
  contradiction.
Qed.

(** X13: the keyword scanner does not look at the case: bytes that spell a
    keyword once lower-cased make a Keyword token whose value is the keyword
    in lower case, located at the starting cursor, and the cursor ends behind
    them. *)
Theorem lexKeyword_case_insensitive (pre w tail k : gostring) (ic : cursor) :
  go_len (pre ++ w ++ tail) ->
  ptr ic = len pre ->
  In k Parser.keywords ->
  flat_map Parser.ToLower_byte w = k ->
  length w = length k ->
  Parser.lexKeyword (pre ++ w ++ tail) ic
  = Done (Some (mkTok k keywordType (cur_loc ic)), advance ic (len k), true).
Proof.
  intros Hlen Hp Hin Hlow Hw.
  set (src := pre ++ w ++ tail) in *.
  assert (Hmax : len src <= max_int) by exact Hlen.
  pose proof (len_nonneg pre) as Hpre. pose proof (len_nonneg tail) as Htl.
  assert (Hrem : remaining src ic = w ++ tail).
  { unfold remaining, src. rewrite Hp. unfold len. rewrite Nat2Z.id.
    rewrite skipn_app, skipn_all, Nat.sub_diag. reflexivity. }
  assert (Hcand : k = candidate src ic (length k)).
  { unfold candidate. rewrite Hrem, <- Hw, firstn_app, firstn_all, Nat.sub_diag.
    cbn [firstn]. rewrite app_nil_r. now symmetry. }
  destruct (longestMatch_finds_entry src ic Parser.keywords k)
    as (st & j & Hr & Hinm & Ej & Hkj); try assumption; try lia.
  { unfold Parser.keywords. repeat constructor; discriminate. }
  { rewrite Hrem, length_app. lia. }
  destruct (candidate_prefix src ic (length k) j Hkj) as [x Hx].
  rewrite <- Hcand in Hx. rewrite <- Ej in Hx.
  pose proof (keywords_prefix_free k _ x Hin Hinm Hx) as Hmk.
  unfold Parser.lexKeyword, Parser.longestMatch. rewrite Hr. cbn [bind]. rewrite Hmk.
  pose proof (vocabulary_short k (or_intror Hin)) as Hshort.
  replace (bytes_eqb k []) with false.
  2:{ symmetry. destruct (bytes_eqb k []) eqn:Eb; [| reflexivity].
      apply bytes_eqb_eq in Eb. rewrite Eb in Hshort. change (len (@nil ascii)) with 0 in Hshort. lia. }
  assert (Hl : len src = len pre + len w + len tail) by (unfold src; len_simpl; lia).
  assert (Hwk : len w = len k) by (unfold len; lia).
  unfold advance, set_ptr, set_column. cbn [ptr cur_loc line column].
  unfold max_int in Hmax.
  rewrite (uint_small (len k)) by lia.
  rewrite (uint_small (ptr ic + len k)) by lia.
  reflexivity.
Qed.

Lemma lexKeyword_case_insensitive_witness :
  Parser.lexKeyword (str "(" ++ str "SeLeCT" ++ str " 1") (mkCursor 1 (mkLoc 0 1))
  = Done (Some (mkTok (str "select") keywordType (mkLoc 0 1)),
          advance (mkCursor 1 (mkLoc 0 1)) (len (str "select")), true).
Proof.
  apply lexKeyword_case_insensitive.
  - vm_compute; discriminate.
  - reflexivity.
  - now left.
  - reflexivity.
  - reflexivity.
Defined.

Lemma between_snoc (src : gostring) (ic cur : cursor) x :
  0 <= ptr ic <= ptr cur ->
  index src (ptr cur) = Done x ->
  forall c', ptr c' = ptr cur + 1 ->
  between src ic c' = between src ic cur ++ [x].
Proof.
  intros Hr Hi c' Hc'. unfold between. rewrite Hc'.
  apply index_Done in Hi. destruct Hi as [Hb Hn].
  replace (Z.to_nat (ptr cur + 1 - ptr ic)) with (Z.to_nat (ptr cur - ptr ic) + 1)%nat by lia.
  rewrite firstn_add. f_equal.
  replace (Z.to_nat (ptr cur)) with (Z.to_nat (ptr ic) + Z.to_nat (ptr cur - ptr ic))%nat
    in Hn by lia.
  rewrite <- nth_error_skipn in Hn.
  rewrite (skipn_nth_error _ _ _ Hn). reflexivity.
Qed.

Lemma count_snoc (v : gostring) (x y : byte) :
  count_occ ascii_dec (v ++ [x]) y
  = (count_occ ascii_dec v y + if Ascii.eqb x y then 1 else 0)%nat.
Proof.
  rewrite count_occ_app. cbn [count_occ].
  destruct (ascii_dec x y) as [-> | H].
  - now rewrite Ascii.eqb_refl.
  - apply Ascii.eqb_neq in H. now rewrite H.
Qed.

Lemma numeric_flags_snoc pf ef v x pf' ef' :
  numeric_flags pf ef v ->
  numeric_byte x ->
  (Ascii.eqb x "." = true -> pf = false /\ pf' = true) ->
  (Ascii.eqb x "e" = true -> ef = false /\ ef' = true) ->
  (Ascii.eqb x "." = false -> pf = true -> pf' = true) ->
  (Ascii.eqb x "e" = false -> ef = true -> ef' = true) ->
  numeric_flags pf' ef' (v ++ [x]).
Proof.
  intros ((Hall & Hp & He) & Hpf & Hef) Hx H1 H2 H3 H4.
  unfold numeric_flags, numeric_shape. rewrite !count_snoc.
  assert (Hall' : Forall numeric_byte (v ++ [x])).
  { apply Forall_app. split; [assumption | now constructor]. }
  destruct (Ascii.eqb x ".") eqn:Edot; destruct (Ascii.eqb x "e") eqn:Ee.
  - apply Ascii.eqb_eq in Edot, Ee. subst. discriminate Ee.
  - destruct (H1 eq_refl) as [Hf ->].
    assert (count_occ ascii_dec v "."%char = 0)%nat.
    { destruct (Nat.eq_dec (count_occ ascii_dec v "."%char) 1) as [E | E];
        [specialize (Hpf E); congruence | lia]. }
    repeat split; try assumption; try lia.
    intros E. apply H4; [reflexivity | apply Hef; lia].
  - destruct (H2 eq_refl) as [Hf ->].
    assert (count_occ ascii_dec v "e"%char = 0)%nat.
    { destruct (Nat.eq_dec (count_occ ascii_dec v "e"%char) 1) as [E | E];
        [specialize (Hef E); congruence | lia]. }
    repeat split; try assumption; try lia.
    intros E. apply H3; [reflexivity | apply Hpf; lia].
  - repeat split; try assumption; try lia.
    + intros E. apply H3; [reflexivity | apply Hpf; lia].
    + intros E. apply H4; [reflexivity | apply Hef; lia].
Qed.

Lemma lexNum_loop_shape fuel : forall (src : gostring) ic cur pf ef c',
  go_len src ->
  0 <= ptr ic <= ptr cur ->
  (ptr cur = ptr ic \/ numeric_flags pf ef (between src ic cur)) ->
  Parser.lexNum_loop fuel src ic cur pf ef = Done (Some c') ->
  ptr c' = ptr ic \/ numeric_shape (between src ic c').
Proof.
  induction fuel as [| fuel IH]; intros src ic cur pf ef c' Hlen Hr Hinv; [discriminate |].
  assert (Hmax : len src <= max_int) by exact Hlen.
  cbn [Parser.lexNum_loop]. rewrite (uint_len _ Hlen).
  destruct (ptr cur <? len src) eqn:Hlt.
  2:{ intros [= <-]. destruct Hinv as [E | [Hs _]]; [now left | now right]. }
  apply Z.ltb_lt in Hlt.
  destruct (index src (ptr cur)) as [x | |] eqn:Ex; cbn [bind]; try discriminate.
  cbn zeta. fold (isDigit x). rewrite ptr_inc_column.
  assert (Hnext : ptr (inc_ptr (inc_column cur)) = ptr cur + 1) by (ptr_simpl; lia).
  pose proof (between_snoc src ic cur x Hr Ex _ Hnext) as Hsnoc.
  destruct (ptr cur =? ptr ic) eqn:Hfirst.
  { (* the first byte *)
    apply Z.eqb_eq in Hfirst.
    destruct (negb (isDigit x) && negb (Ascii.eqb x ".")) eqn:Hstart; [discriminate |].
    apply IH; [exact Hlen | lia |]. right. rewrite Hsnoc.
    replace (between src ic cur) with (@nil ascii)
      by (unfold between; rewrite Hfirst, Z.sub_diag; reflexivity).
    assert (Hx : isDigit x = true \/ x = "."%char).
    { apply andb_false_iff in Hstart.
      destruct Hstart as [H | H]; apply negb_false_iff in H;
        [now left | right; now apply Ascii.eqb_eq]. }
    assert (Hne : Ascii.eqb x "e" = false).
    { destruct Hx as [Hx | ->]; [apply (isDigit_not_marker x Hx) | reflexivity]. }
    apply (numeric_flags_snoc false false [] x).
    - unfold numeric_flags, numeric_shape. cbn [count_occ].
      repeat split; [constructor | lia | lia | intros H; discriminate H
                    | intros H; discriminate H].
    - destruct Hx as [Hx | ->]; [now left | right; now left].
    - intros H. split; [reflexivity | exact H].
    - intros H. congruence.
    - intros _ H. discriminate H.
    - intros _ H. discriminate H. }
  apply Z.eqb_neq in Hfirst.
  destruct Hinv as [E | Hinv]; [contradiction |].
  destruct (Ascii.eqb x ".") eqn:Hdot.
  { destruct pf; [discriminate |].
    apply IH; [exact Hlen | lia |]. right. rewrite Hsnoc.
    apply Ascii.eqb_eq in Hdot. subst x.
    apply (numeric_flags_snoc false ef _ "."%char true ef).
    - exact Hinv.
    - right; now left.
    - intros _. split; reflexivity.
    - intros H. discriminate H.
    - intros H. discriminate H.
    - intros _ H. exact H. }
  destruct (Ascii.eqb x "e") eqn:He.
  { destruct ef; [discriminate |].
    destruct (ptr cur =? uint (len src - 1)) eqn:Hlast; [discriminate |].
    rewrite uint_small in Hlast by (unfold max_int in *; lia).
    apply Z.eqb_neq in Hlast.
    rewrite uint_succ by lia.
    destruct (index src (ptr cur + 1)) as [s | |] eqn:Es; cbn [bind]; try discriminate.
    apply Ascii.eqb_eq in He. subst x.
    assert (Hone : numeric_flags true true (between src ic cur ++ ["e"%char])).
    { apply (numeric_flags_snoc pf false _ "e"%char true true).
      - exact Hinv.
      - right; right; now left.
      - intros H. discriminate H.
      - intros _. split; reflexivity.
      - intros _ _. reflexivity.
      - intros H. discriminate H. }
    destruct (Ascii.eqb s "-" || Ascii.eqb s "+") eqn:Hsign.
    - (* a sign behind the marker is consumed with it *)
      apply IH; [exact Hlen | ptr_simpl; lia |]. right.
      rewrite (between_snoc src ic (inc_ptr (inc_column cur)) s);
        [| lia | now rewrite Hnext | ptr_simpl; lia].
      rewrite Hsnoc.
      assert (Hs : s = "-"%char \/ s = "+"%char).
      { apply orb_true_iff in Hsign.
        destruct Hsign as [H | H]; apply Ascii.eqb_eq in H; auto. }
      apply (numeric_flags_snoc true true _ s true true).
      + exact Hone.
      + unfold numeric_byte. destruct Hs as [-> | ->]; auto.
      + intros H. destruct Hs as [-> | ->]; discriminate H.
      + intros H. destruct Hs as [-> | ->]; discriminate H.
      + intros _ _. reflexivity.
      + intros _ _. reflexivity.
    - apply IH; [exact Hlen | lia |]. right. now rewrite Hsnoc. }
  destruct (isDigit x) eqn:Hd; cbn [negb].
  - apply IH; [exact Hlen | lia |]. right. rewrite Hsnoc.
    apply (numeric_flags_snoc pf ef _ x pf ef).
    + exact Hinv.
    + now left.
    + intros H. congruence.
    + intros H. congruence.
    + intros _ H. exact H.
    + intros _ H. exact H.
  - intros [= <-]. right. destruct Hinv as [Hs _].
    unfold between in *. now rewrite ptr_inc_column.
Qed.

(** X14: a Numeric token holds digits, periods, exponent markers and signs only,
    with at most one period and at most one exponent marker. *)
Theorem lexNum_shape (src : gostring) (ic c : cursor) (t : tok) :
  go_len src ->
  Parser.lexNum src ic = Done (Some t, c, true) ->
  numeric_shape (value t).
Proof.
  intros Hlen H. pose proof (lexNum_spec src ic Hlen) as Hs. rewrite H in Hs.
  destruct Hs as (H0 & Hp & _).
  revert H. unfold Parser.lexNum.
  destruct (Parser.lexNum_loop _ _ _ _ _ _) as [[cur |] | |] eqn:El; cbn [bind];
    try discriminate.
  destruct (ptr cur =? ptr ic) eqn:E; [discriminate |].
  unfold slice.
  destruct ((0 <=? ptr ic) && (ptr ic <=? ptr cur) && (ptr cur <=? len src));
    cbn [bind]; [| discriminate].
  intros [= <- <-]. cbn [value].
  apply lexNum_loop_shape in El; [| exact Hlen | lia | now left].
  apply Z.eqb_neq in E. destruct El as [El | El]; [contradiction | exact El].
Qed.

Lemma lexNum_shape_witness :
  numeric_shape (value (mkTok (str "1.5e-3") numericType (mkLoc 0 0))).
Proof.
  apply (lexNum_shape (str "1.5e-3,") cursor0 (mkCursor 6 (mkLoc 0 7))).
  - vm_compute; discriminate.
  - vm_compute. reflexivity.
Defined.

Lemma lexCharacterDelimited_loop_stamp fuel : forall src ic cur d v t c,
  Parser.lexCharacterDelimited_loop fuel src ic cur d v = Done (Some (t, c)) ->
  tok_loc t = cur_loc ic /\ tt t = stringType.
Proof.
  induction fuel as [| fuel IH]; intros src ic cur d v t c; [discriminate |].
  cbn [Parser.lexCharacterDelimited_loop].
  destruct (ptr cur <? uint (len src)); [| discriminate].
  destruct (index src (ptr cur)) as [x | |]; cbn [bind]; try discriminate.
  destruct (Ascii.eqb x d).
  - match goal with |- context [bind ?m _] => destruct m as [[|] | |] end;
      cbn [bind]; try discriminate.
    + intros [= <- _]. split; reflexivity.
    + apply IH.
  - apply IH.
Qed.

Lemma lexCharacterDelimited_stamp src ic d t c :
  Parser.lexCharacterDelimited src ic d = Done (t, c, true) ->
  exists t', t = Some t' /\ tok_loc t' = cur_loc ic /\ tt t' = stringType.
Proof.
  unfold Parser.lexCharacterDelimited.
  destruct (slice_from src (ptr ic)) as [r | |]; cbn [bind]; try discriminate.
  destruct (len r =? 0); [discriminate |].
  destruct (index src (ptr ic)) as [x | |]; cbn [bind]; try discriminate.
  destruct (negb (Ascii.eqb x d)); [discriminate |].
  destruct (Parser.lexCharacterDelimited_loop _ _ _ _ _ _) as [[[t' c'] |] | |] eqn:E;
    cbn [bind]; try discriminate.
  intros [= <- _]. exists t'. split; [reflexivity |].
  now apply lexCharacterDelimited_loop_stamp in E.
Qed.

(** X15: what a successful scan hands back: a token located at the starting
    cursor and of a kind of its scanner (the identifier scanner returns a
    String token for a quoted identifier); only the symbol scanner succeeds
    without a token. *)
Theorem scan_token_stamp (s : scanner) (src : gostring) (ic c : cursor)
    (t : option tok) :
  scan s src ic = Done (t, c, true) ->
  match t with
  | Some t' => tok_loc t' = cur_loc ic /\ In (tt t') (kinds s)
  | None => s = symbol
  end.
Proof.
  destruct s as [| d | | |]; cbn [scan kinds In].
  - unfold Parser.lexNum.
    destruct (Parser.lexNum_loop _ _ _ _ _ _) as [[cur |] | |]; cbn [bind];
      try discriminate.
    destruct (ptr cur =? ptr ic); [discriminate |].
    destruct (slice src (ptr ic) (ptr cur)); cbn [bind]; try discriminate.
    intros [= <- _]. cbn. auto.
  - intros H. apply lexCharacterDelimited_stamp in H.
    destruct H as (t' & -> & Hl & Hk). auto.
  - unfold Parser.lexSymbol.
    destruct (index src (ptr ic)) as [x | |]; cbn [bind]; try discriminate.
    cbn zeta.
    destruct (Ascii.eqb x "010"); [now intros [= <- _] |].
    destruct (Ascii.eqb x "009"); [now intros [= <- _] |].
    destruct (Ascii.eqb x " "); [now intros [= <- _] |].
    destruct (Parser.longestMatch src ic Parser.symbols) as [m | |]; cbn [bind];
      try discriminate.
    destruct (bytes_eqb m []); [discriminate |].
    intros [= <- _]. cbn. auto.
  - unfold Parser.lexKeyword.
    destruct (Parser.longestMatch src ic Parser.keywords) as [m | |]; cbn [bind];
      try discriminate.
    destruct (bytes_eqb m []); [discriminate |].
    intros [= <- _]. cbn. auto.
  - unfold Parser.lexIdentifier.
    destruct (Parser.lexCharacterDelimited src ic "034") as [[[q cq] [|]] | |] eqn:Eq;
      cbn [bind]; try discriminate.
    + intros [= <- _]. apply lexCharacterDelimited_stamp in Eq.
      destruct Eq as (t' & -> & Hl & Hk). auto.
    + destruct (index src (ptr ic)) as [x | |]; cbn [bind]; try discriminate.
      destruct (negb (Parser.isAlphabetical x)); [discriminate |].
      destruct (Parser.lexIdentifier_loop _ _ _ _) as [[v cur] | |]; cbn [bind];
        try discriminate.
      destruct (len v =? 0); [discriminate |].
      intros [= <- _]. cbn. auto.
Qed.

Lemma scan_token_stamp_witness :
  tok_loc (mkTok (str "Foo") stringType (mkLoc 2 7)) = cur_loc (mkCursor 0 (mkLoc 2 7))
  /\ In (tt (mkTok (str "Foo") stringType (mkLoc 2 7))) (kinds identifier).
Proof.
  apply (scan_token_stamp identifier (dquote (str "Foo")) (mkCursor 0 (mkLoc 2 7))
           (mkCursor 4 (mkLoc 2 11)) (Some (mkTok (str "Foo") stringType (mkLoc 2 7)))).
  vm_compute. reflexivity.
Defined.

Lemma Parse_loop_total_witness :
  exists r,
    Parser.Parse_loop parse_one_literal 4 one_literal_tokens 0 (Parser.mkAST []) []
    = Done r.
Proof.
  apply Parse_loop_total.
  - vm_compute; discriminate.
  - intros c stmt c' Hc. change (len one_literal_tokens) with 3 in *.
    assert (Hcases : c = 0 \/ c = 1 \/ c = 2) by lia.
    destruct Hcases as [-> | [-> | ->]]; vm_compute; intros [= _ <-];
      split; discriminate.
  - lia.
  - vm_compute. lia.
Defined.
